(** * plugin-sdk-go: the filesystem cache and its lock protocol

    A shallow embedding of [plugin/cache/cache.go] and [plugin/utils/file.go].
    The Go functions are written as programs over the operating-system calls
    they make ([os.Stat], [os.MkdirAll], [os.OpenFile], [os.Remove],
    [File.Close], [time.Sleep]); a program is run against any operating
    system (a handler over a world), sequentially or interleaved with other
    processes. *)

From Stdlib Require Import ZArith Ascii.
From stdpp Require Import base list strings gmap.

Local Open Scope Z_scope.

(** ** The Go standard library, as far as the package uses it *)

Module strings.

(** [strings.HasSuffix]:
    [len(s) >= len(suffix) && s[len(s)-len(suffix):] == suffix]. *)
Definition HasSuffix (s suffix : string) : bool :=
  (String.length suffix <=? String.length s)%nat
  && String.eqb
       (String.substring (String.length s - String.length suffix)
                         (String.length suffix) s)
       suffix.

(** [strings.trimLeftByte]:
    [for len(s) > 0 && s[0] == c { s = s[1:] }; return s]. *)
Fixpoint trimLeftByte (s : string) (c : ascii) : string :=
  match s with
  | String a s' => if Ascii.eqb a c then trimLeftByte s' c else s
  | EmptyString => s
  end.

Fixpoint inCutset (a : ascii) (cutset : string) : bool :=
  match cutset with
  | String c cutset' => Ascii.eqb a c || inCutset a cutset'
  | EmptyString => false
  end.

Fixpoint trimLeftCutset (s cutset : string) : string :=
  match s with
  | String a s' => if inCutset a cutset then trimLeftCutset s' cutset else s
  | EmptyString => s
  end.

(** [strings.TrimLeft]: the leading bytes contained in [cutset] are removed;
    a one-byte ASCII cutset takes the [trimLeftByte] path. *)
Definition TrimLeft (s cutset : string) : string :=
  match s, cutset with
  | EmptyString, _ => s
  | _, EmptyString => s
  | _, String c EmptyString => trimLeftByte s c
  | _, _ => trimLeftCutset s cutset
  end.

End strings.

(** [syscall.Errno] values (Linux). *)
Definition Errno := Z.
Definition ENOENT : Errno := 2.
Definition EACCES : Errno := 13.
Definition EEXIST : Errno := 17.
Definition ENOTEMPTY : Errno := 39.
Definition ENOTDIR : Errno := 20.

(** Go's [error] values that reach this package: the package's own
  [InvalidCacheFileName] and the [*os.PathError] of a failed system call. *)
Inductive error : Type :=
| InvalidCacheFileName (msg : string)
| PathError (Op Path : string) (Err : Errno).

Global Instance error_eq_dec : EqDecision error.
Proof. solve_decision. Defined.

Module os.

(** [os.IsNotExist]: the underlying error is [ENOENT]. *)
Definition IsNotExist (err : error) : bool :=
  match err with
  | PathError _ _ e => e =? ENOENT
  | InvalidCacheFileName _ => false
  end.

(** [os.IsExist]: the underlying error is [EEXIST] or [ENOTEMPTY]. *)
Definition IsExist (err : error) : bool :=
  match err with
  | PathError _ _ e => (e =? EEXIST) || (e =? ENOTEMPTY)
  | InvalidCacheFileName _ => false
  end.

(** Open flags (Linux) and permission bits. *)
Definition O_RDWR : Z := 2.
Definition O_CREATE : Z := 64.
Definition O_EXCL : Z := 128.
Definition ModePerm : Z := 511.   (* 0777 *)

End os.

Definition File := Z.          (* an open descriptor *)
Definition Duration := Z.      (* nanoseconds, as [time.Duration] *)
Definition Microsecond : Duration := 1000.

(** ** Programs over system calls *)

Inductive Call : Type :=
| os_Stat (name : string)
| os_MkdirAll (path : string) (perm : Z)
| os_OpenFile (name : string) (flag : Z) (perm : Z)
| os_Remove (name : string)
| file_Close (f : File)
| time_Sleep (d : Duration).

(** What each call hands back.  Every caller discards the [FileInfo] of
  [os.Stat], so only its error is kept; [nil] is [None]. *)
Definition result (c : Call) : Type :=
  match c with
  | os_Stat _ => option error
  | os_MkdirAll _ _ => option error
  | os_OpenFile _ _ _ => (File + error)%type
  | os_Remove _ => option error
  | file_Close _ => option error
  | time_Sleep _ => unit
  end.

Inductive Prog (A : Type) : Type :=
| Return (a : A)
| Syscall (c : Call) (k : result c -> Prog A).
Arguments Return {A} a.
Arguments Syscall {A} c k.

Fixpoint bind {A B : Type} (p : Prog A) (f : A -> Prog B) : Prog B :=
  match p with
  | Return a => f a
  | Syscall c k => Syscall c (fun r => bind (k r) f)
  end.

Definition call (c : Call) : Prog (result c) := Syscall c Return.

Declare Scope prog_scope.
Delimit Scope prog_scope with prog.
Notation "x <- p ;; q" := (bind p (fun x => q))
  (at level 100, p at next level, right associativity) : prog_scope.
Local Open Scope prog_scope.

(** [err == nil] *)
Definition isNil (err : option error) : bool :=
  match err with None => true | Some _ => false end.

(** ** plugin/utils/file.go *)

Section Packages.

(** [filepath.Dir], from the Go standard library. *)
Variable filepath_Dir : string -> string.

(** [DoesFileExist(name string) (bool, error)] *)
Definition DoesFileExist (name : string) : Prog (bool * option error) :=
  err <- call (os_Stat name) ;;
  match err with
  | Some e =>
      if os.IsNotExist e then Return (false, None)
      else Return (false, Some e)
  | None => Return (true, None)
  end.

(** [OpenFile(name string, flags int, perms os.FileMode)], returning the file or the error. *)
Definition OpenFile (name : string) (flags : Z) (perms : Z) : Prog (File + error) :=
  err <- call (os_Stat name) ;;
  match err with
  | Some _ =>
      (* If it didn't exist *)
      r <- DoesFileExist name ;;
      let '(ok, err) := r in
      if negb ok && isNil err then
        (* Create the file and all directories leading up to it *)
        err <- call (os_MkdirAll (filepath_Dir name) os.ModePerm) ;;
        match err with
        | Some e => Return (inr e)
        | None => call (os_OpenFile name flags perms)
        end
      else
        match err with
        | Some e => Return (inr e)
        | None => call (os_OpenFile name flags perms)
        end
  | None =>
      (* Make the file *)
      call (os_OpenFile name flags perms)
  end.

(** ** plugin/cache/cache.go *)

Definition cacheDir : string := "/var/cache/".
Definition lockDir : string := "/var/cache/lock/".
Definition filePerms : Z := 384.   (* 0600 *)

(** We told them not to, but just in case they did, strip any leading slashes. *)
Definition stripLeftSlash (name : string) : string :=
  strings.TrimLeft name "/".

Definition isReservedName (name : string) : option error :=
  if strings.HasSuffix name "/lock" then
    Some (InvalidCacheFileName
            "'lock' is a reserved name in the cache, please choose a different file name")
  else None.

Definition doesExist (name : string) : Prog (bool * option error) :=
  err <- call (os_Stat name) ;;
  match err with
  | Some e =>
      if os.IsNotExist e then Return (false, None)
      else Return (false, Some e)
  | None => Return (true, None)
  end.

Definition open (name : string) (flags : Z) : Prog (File + error) :=
  err <- call (os_Stat name) ;;
  match err with
  | Some _ =>
      (* If it didn't exist *)
      r <- doesExist name ;;
      let '(ok, err) := r in
      if negb ok && isNil err then
        err <- call (os_MkdirAll (filepath_Dir name) os.ModePerm) ;;
        match err with
        | Some e => Return (inr e)
        | None => call (os_OpenFile name flags filePerms)
        end
      else
        match err with
        | Some e => Return (inr e)
        | None => call (os_OpenFile name flags filePerms)
        end
  | None =>
      (* Make the file *)
      call (os_OpenFile name flags filePerms)
  end.

Definition openFile (name : string) : Prog (File + error) :=
  open name (Z.lor os.O_RDWR os.O_CREATE).

Definition openExclusiveFile (name : string) : Prog (File + error) :=
  open name (Z.lor (Z.lor os.O_RDWR os.O_CREATE) os.O_EXCL).

Definition OpenCacheFile (name : string) : Prog (File + error) :=
  match isReservedName name with
  | Some err => Return (inr err)
  | None => openFile (cacheDir +:+ stripLeftSlash name)
  end.

Definition RemoveCacheFile (name : string) : Prog (option error) :=
  match isReservedName name with
  | Some err => Return (Some err)
  | None => call (os_Remove (cacheDir +:+ stripLeftSlash name))
  end.

Definition CheckCacheFile (name : string) : Prog (bool * option error) :=
  doesExist (cacheDir +:+ stripLeftSlash name).

(** One pass through the body of the [for] loop of [LockCacheFile], on the
    resolved marker path: [None] is [continue], [Some r] is [return r] (the
    [break] is followed by [return true, nil]). *)
Definition LockCacheFile_body (name : string)
  : Prog (option (bool * option error)) :=
  (* Spin wait until something errors, or the file becomes free *)
  r <- doesExist name ;;
  let '(ok, err) := r in
  if ok && isNil err then
    (* Let's give the thread a nap while we wait *)
    _ <- call (time_Sleep (1 * Microsecond)) ;;
    Return None
  else
    (* If we got by the if clause because of an error, bail out *)
    match err with
    | Some e => Return (Some (false, Some e))
    | None =>
        (* attempt an exclusive lock *)
        r <- openExclusiveFile name ;;
        match r with
        | inr e =>
            if os.IsExist e then Return None
            else Return (Some (false, Some e))
        | inl f =>
            _ <- call (file_Close f) ;;
            Return (Some (true, None))
        end
    end.

(** The loop has no bound in the source; [fuel] bounds the number of passes
    the model unrolls, and the outer [None] is "still spinning". *)
Fixpoint LockCacheFile_loop (fuel : nat) (name : string)
  : Prog (option (bool * option error)) :=
  match fuel with
  | O => Return None
  | S fuel' =>
      r <- LockCacheFile_body name ;;
      match r with
      | None => LockCacheFile_loop fuel' name
      | Some res => Return (Some res)
      end
  end.

Definition LockCacheFile (fuel : nat) (name : string)
  : Prog (option (bool * option error)) :=
  LockCacheFile_loop fuel (lockDir +:+ stripLeftSlash name).

Definition UnlockCacheFile (name : string) (timeout : option Duration)
  : Prog (bool * option error) :=
  _ <- match timeout with
       | Some d => call (time_Sleep d)
       | None => Return tt
       end ;;
  err <- call (os_Remove (lockDir +:+ stripLeftSlash name)) ;;
  match err with
  | Some e => Return (false, Some e)
  | None => Return (true, None)
  end.

End Packages.

Global Arguments doesExist : simpl never.
Global Arguments DoesFileExist : simpl never.
Global Arguments open : simpl never.
Global Arguments OpenFile : simpl never.
Global Arguments openExclusiveFile : simpl never.
Global Arguments LockCacheFile_body : simpl never.

(** ** Running a program

    An operating system is a handler: it answers each call in a world and
    yields the next world.  Nothing is assumed of it here, so a handler may
    fail any call with any error.  [exec] also records the calls made, in
    order, with their answers. *)

Record Event : Type := Ev { ev_call : Call; ev_result : result ev_call }.

Definition Handler (W : Type) : Type := forall c : Call, W -> result c * W.

Fixpoint exec {W A : Type} (sys : Handler W) (p : Prog A) (w : W)
  : A * W * list Event :=
  match p with
  | Return a => (a, w, [])
  | Syscall c k =>
      let rw := sys c w in
      let '(a, w', tr) := exec sys (k rw.1) rw.2 in
      (a, w', Ev c rw.1 :: tr)
  end.

Definition value {W A : Type} (x : A * W * list Event) : A := x.1.1.
Definition final {W A : Type} (x : A * W * list Event) : W := x.1.2.
Definition trace {W A : Type} (x : A * W * list Event) : list Event := x.2.

(** A call is on path [P] when the path it names is [P], or the directory
    of [P] for the call that creates directories. *)
Definition on_path (filepath_Dir : string -> string) (P : string) (e : Event) : Prop :=
  match ev_call e with
  | os_Stat name => name = P
  | os_MkdirAll path _ => path = filepath_Dir P
  | os_OpenFile name _ _ => name = P
  | os_Remove name => name = P
  | file_Close _ => True
  | time_Sleep _ => True
  end.

(** The error an answer carries, if it carries one. *)
Definition event_error (e : Event) : option error :=
  match ev_call e as c return result c -> option error with
  | os_Stat _ => fun r => r
  | os_MkdirAll _ _ => fun r => r
  | os_OpenFile _ _ _ => fun r => match r with inr e => Some e | inl _ => None end
  | os_Remove _ => fun r => r
  | file_Close _ => fun r => r
  | time_Sleep _ => fun _ => None
  end (ev_result e).

Definition first_call (tr : list Event) : option Call :=
  match tr with
  | e :: _ => Some (ev_call e)
  | [] => None
  end.

(** [flag & mask == mask] *)
Definition has_bits (flag mask : Z) : bool := Z.land flag mask =? mask.

(** What the lock protocol relies on from the filesystem, stated against an
    observation [present w name] ("a file of this name exists in [w]"):
    exclusive create succeeds only where nothing is present and leaves the
    file present; no call but a removal makes a file disappear; removing
    what is not there fails; a successful removal leaves nothing behind. *)
Record FsLaws {W : Type} (sys : Handler W) (present : W -> string -> bool) : Prop := {
  excl_create : forall w name flag perm f,
    has_bits flag (Z.lor os.O_CREATE os.O_EXCL) = true ->
    (sys (os_OpenFile name flag perm) w).1 = inl f ->
    present w name = false /\
    present (sys (os_OpenFile name flag perm) w).2 name = true;
  keeps_files : forall c w name,
    (forall other, c <> os_Remove other) ->
    present w name = true -> present (sys c w).2 name = true;
  remove_absent : forall w name,
    present w name = false ->
    exists e, (sys (os_Remove name) w).1 = Some e /\ os.IsNotExist e = true;
  remove_gone : forall w name,
    (sys (os_Remove name) w).1 = None ->
    present (sys (os_Remove name) w).2 name = false
}.

(** ** Processes contending for one lock

    Each process is one of the package's callers: it invokes
    [LockCacheFile], works while it has the lock, invokes [UnlockCacheFile].
    Processes share nothing but the filesystem; a step runs one call of one
    process against it. *)

Inductive Thread : Type :=
| Idle
| Acquiring (p : Prog (option (bool * option error)))
| Held
| Releasing (p : Prog (bool * option error)).

Record System (W : Type) : Type := Sys { world : W; threads : list Thread }.
Arguments Sys {W} world threads.
Arguments world {W} s.
Arguments threads {W} s.

(** What a process decides for itself when it starts an operation. *)
Record Choice : Type := Choose { spins : nat; delay : option Duration }.

(** The caller checks the boolean first, as the package's comments ask. *)
Definition won (r : option (bool * option error)) : bool :=
  match r with
  | Some (true, _) => true
  | _ => false
  end.

(** Inside [LockCacheFile], the marker is this process's own once its
    exclusive create has succeeded: from then on it only closes the handle
    and returns [true]. *)
Definition created (p : Prog (option (bool * option error))) : bool :=
  match p with
  | Syscall (file_Close _) _ => true
  | Syscall _ _ => false
  | Return r => won r
  end.

(** A process has the lock from its successful create until its removal of
    the marker has run. *)
Definition holds (t : Thread) : bool :=
  match t with
  | Idle => false
  | Acquiring p => created p
  | Held => true
  | Releasing (Syscall _ _) => true
  | Releasing (Return _) => false
  end.

Fixpoint holders (ts : list Thread) : nat :=
  match ts with
  | [] => 0%nat
  | t :: ts' => ((if holds t then 1 else 0) + holders ts')%nat
  end.

Section Processes.

Variable filepath_Dir : string -> string.
Context {W : Type} (sys : Handler W).
Variable name : string.

Definition step_thread (ch : Choice) (t : Thread) (w : W) : Thread * W :=
  match t with
  | Idle => (Acquiring (LockCacheFile filepath_Dir (spins ch) name), w)
  | Acquiring (Syscall c k) => (Acquiring (k (sys c w).1), (sys c w).2)
  | Acquiring (Return r) => (if won r then Held else Idle, w)
  | Held => (Releasing (UnlockCacheFile name (delay ch)), w)
  | Releasing (Syscall c k) => (Releasing (k (sys c w).1), (sys c w).2)
  | Releasing (Return _) => (Idle, w)
  end.

(** Process [i] takes a step; a process that does not exist takes none. *)
Definition step (st : System W) (ic : nat * Choice) : System W :=
  match threads st !! ic.1 with
  | Some t =>
      let tw := step_thread ic.2 t (world st) in
      Sys tw.2 (<[ic.1 := tw.1]> (threads st))
  | None => st
  end.

Definition run (st : System W) (schedule : list (nat * Choice)) : System W :=
  foldl step st schedule.

Definition init (w : W) (n : nat) : System W := Sys w (replicate n Idle).

End Processes.

(** *** The shape of a process's remaining program

    What is left to run of [LockCacheFile] on [marker] is of one of two
    kinds.  Before the marker is this process's own, the calls are stats,
    directory creations, naps and exclusive creates of [marker], and the
    process becomes owner exactly by a create that succeeds; it never
    returns [true] from there.  After, it closes the handle and returns
    [true].  What is left of [UnlockCacheFile] is naps, then the removal of
    [marker], then the return. *)

Section Shapes.

Variable marker : string.

Definition acquiring_call (c : Call) : Prop :=
  match c with
  | os_Stat _ => True
  | os_MkdirAll _ _ => True
  | os_OpenFile name flag _ =>
      name = marker /\ has_bits flag (Z.lor os.O_CREATE os.O_EXCL) = true
  | os_Remove _ => False
  | file_Close _ => False
  | time_Sleep _ => True
  end.

Definition creates (c : Call) : result c -> bool :=
  match c with
  | os_OpenFile _ _ _ => fun r => match r with inl _ => true | inr _ => false end
  | _ => fun _ => false
  end.

Fixpoint post_ok (p : Prog (option (bool * option error))) : Prop :=
  match p with
  | Return r => won r = true
  | Syscall c k => (exists f, c = file_Close f) /\ forall r, post_ok (k r)
  end.

Fixpoint pre_ok (p : Prog (option (bool * option error))) : Prop :=
  match p with
  | Return r => won r = false
  | Syscall c k =>
      acquiring_call c /\
      forall r, if creates c r then post_ok (k r) else pre_ok (k r)
  end.

Definition releasing_call (c : Call) : Prop :=
  match c with
  | time_Sleep _ => True
  | os_Remove name => name = marker
  | _ => False
  end.

Definition is_remove (c : Call) : bool :=
  match c with
  | os_Remove _ => true
  | _ => false
  end.

Definition is_return {A : Type} (p : Prog A) : Prop :=
  match p with
  | Return _ => True
  | Syscall _ _ => False
  end.

Fixpoint rel_ok (p : Prog (bool * option error)) : Prop :=
  match p with
  | Return _ => True
  | Syscall c k =>
      releasing_call c /\
      forall r, if is_remove c then is_return (k r) else rel_ok (k r)
  end.

Definition thread_ok (t : Thread) : Prop :=
  match t with
  | Idle => True
  | Acquiring p => pre_ok p \/ post_ok p
  | Held => True
  | Releasing p => rel_ok p
  end.

End Shapes.

(** The invariant of the system: every process is in shape, at most one has
    the lock, and while one has it the marker is there. *)
Definition Inv {W : Type} (present : W -> string -> bool) (marker : string)
    (st : System W) : Prop :=
  Forall (thread_ok marker) (threads st) /\
  (holders (threads st) <= 1)%nat /\
  (holders (threads st) = 1%nat -> present (world st) marker = true).

(** ** A small filesystem

    Regular files by name, a clock and a descriptor counter; directories are
    implicit.  It answers the calls the way a quiet local filesystem does and
    serves to run the programs on concrete inputs. *)

Record MemFS : Type := Mem { files : gset string; now : Z; next_fd : Z }.

Definition memfs : Handler MemFS := fun c w =>
  match c return result c * MemFS with
  | os_Stat name =>
      (if decide (name ∈ files w) then None
       else Some (PathError "stat" name ENOENT), w)
  | os_MkdirAll _ _ => (None, w)
  | os_OpenFile name flag _ =>
      if decide (name ∈ files w) then
        if has_bits flag (Z.lor os.O_CREATE os.O_EXCL)
        then (inr (PathError "open" name EEXIST), w)
        else (inl (next_fd w), Mem (files w) (now w) (next_fd w + 1))
      else
        if has_bits flag os.O_CREATE
        then (inl (next_fd w), Mem ({[name]} ∪ files w) (now w) (next_fd w + 1))
        else (inr (PathError "open" name ENOENT), w)
  | os_Remove name =>
      if decide (name ∈ files w)
      then (None, Mem (files w ∖ {[name]}) (now w) (next_fd w))
      else (Some (PathError "remove" name ENOENT), w)
  | file_Close _ => (None, w)
  | time_Sleep d => (tt, Mem (files w) (now w + Z.max 0 d) (next_fd w))
  end.

(** A filesystem on which every call that can fail fails with [EACCES]. *)
Definition denied_fs : Handler unit := fun c w =>
  match c return result c * unit with
  | os_Stat name => (Some (PathError "stat" name EACCES), w)
  | os_MkdirAll path _ => (Some (PathError "mkdir" path EACCES), w)
  | os_OpenFile name _ _ => (inr (PathError "open" name EACCES), w)
  | os_Remove name => (Some (PathError "remove" name EACCES), w)
  | file_Close _ => (None, w)
  | time_Sleep _ => (tt, w)
  end.

(** A filesystem without files whose second call, if a stat, is denied;
    every other stat finds nothing and everything else succeeds. *)
Definition flaky_fs : Handler nat := fun c n =>
  match c return result c * nat with
  | os_Stat name =>
      (Some (PathError "stat" name (if (n =? 1)%nat then EACCES else ENOENT)), S n)
  | os_MkdirAll _ _ => (None, S n)
  | os_OpenFile _ _ _ => (inl 3, S n)
  | os_Remove _ => (None, S n)
  | file_Close _ => (None, S n)
  | time_Sleep _ => (tt, S n)
  end.

(** A filesystem without the marker where the lock directory cannot be
    made because something that is no directory has its name: every stat
    finds nothing and [os.MkdirAll] answers already-exists. *)
Definition mkdir_exists_fs : Handler unit := fun c w =>
  match c return result c * unit with
  | os_Stat name => (Some (PathError "stat" name ENOENT), w)
  | os_MkdirAll path _ => (Some (PathError "mkdir" path EEXIST), w)
  | os_OpenFile _ _ _ => (inl 3, w)
  | os_Remove _ => (None, w)
  | file_Close _ => (None, w)
  | time_Sleep _ => (tt, w)
  end.

(** A filesystem whose second call, if a stat, is denied, where every other
    stat finds nothing and no directory can be made ([ENOTDIR]). *)
Definition broken_dir_fs : Handler nat := fun c n =>
  match c return result c * nat with
  | os_Stat name =>
      (Some (PathError "stat" name (if (n =? 1)%nat then EACCES else ENOENT)), S n)
  | os_MkdirAll path _ => (Some (PathError "mkdir" path ENOTDIR), S n)
  | os_OpenFile _ _ _ => (inl 3, S n)
  | os_Remove _ => (None, S n)
  | file_Close _ => (None, S n)
  | time_Sleep _ => (tt, S n)
  end.

Definition mem_present (w : MemFS) (name : string) : bool :=
  bool_decide (name ∈ files w).

Definition empty_fs : MemFS := Mem ∅ 0 3.

Fixpoint has_slash (s : string) : bool :=
  match s with
  | EmptyString => false
  | String a rest => Ascii.eqb a "/" || has_slash rest
  end.

(** The directory part of a clean path: everything before its last slash. *)
Fixpoint dir_of (path : string) : string :=
  match path with
  | EmptyString => EmptyString
  | String a rest =>
      if has_slash rest then String a (dir_of rest) else EmptyString
  end.

(** ** The passes of the acquisition loop, call by call

    What a run of [LockCacheFile] can look like, written over the calls and
    their answers alone.  An attempt to create the marker is what
    [openExclusiveFile] does: a stat; when that stat fails, whatever its
    error, a second stat; when the second finds nothing, the creation of the
    directory; then the exclusive [os.OpenFile].  The attempt yields the
    answer of its last call. *)

Section Passes.

Variable filepath_Dir : string -> string.
Variable marker : string.

Inductive create_attempt : list Event -> File + error -> Prop :=
| attempt_found o :
    (* the first stat finds the path: straight to the create *)
    create_attempt
      [Ev (os_Stat marker) None;
       Ev (os_OpenFile marker (Z.lor (Z.lor os.O_RDWR os.O_CREATE) os.O_EXCL) 384) o]
      o
| attempt_appeared e o :
    (* the first stat fails, the second finds the path *)
    create_attempt
      [Ev (os_Stat marker) (Some e);
       Ev (os_Stat marker) None;
       Ev (os_OpenFile marker (Z.lor (Z.lor os.O_RDWR os.O_CREATE) os.O_EXCL) 384) o]
      o
| attempt_recheck_fault e e' :
    (* the second stat fails otherwise than with does-not-exist *)
    os.IsNotExist e' = false ->
    create_attempt
      [Ev (os_Stat marker) (Some e); Ev (os_Stat marker) (Some e')]
      (inr e')
| attempt_mkdir_fault e e' e'' :
    (* the directory cannot be created *)
    os.IsNotExist e' = true ->
    create_attempt
      [Ev (os_Stat marker) (Some e); Ev (os_Stat marker) (Some e');
       Ev (os_MkdirAll (filepath_Dir marker) 511) (Some e'')]
      (inr e'')
| attempt_created e e' o :
    (* the directory is there: the create *)
    os.IsNotExist e' = true ->
    create_attempt
      [Ev (os_Stat marker) (Some e); Ev (os_Stat marker) (Some e');
       Ev (os_MkdirAll (filepath_Dir marker) 511) None;
       Ev (os_OpenFile marker (Z.lor (Z.lor os.O_RDWR os.O_CREATE) os.O_EXCL) 384) o]
      o.

(** A pass that is retried: the marker is found and the process naps, or
    the attempt to create it ends on an already-exists error. *)
Inductive retried_pass : list Event -> Prop :=
| retried_held :
    retried_pass [Ev (os_Stat marker) None; Ev (time_Sleep 1000) tt]
| retried_exists e0 tr e :
    os.IsNotExist e0 = true ->
    create_attempt tr (inr e) ->
    os.IsExist e = true ->
    retried_pass (Ev (os_Stat marker) (Some e0) :: tr).

(** A pass that ends the call, and what the call returns. *)
Inductive last_pass : list Event -> bool * option error -> Prop :=
| last_check_fault e :
    os.IsNotExist e = false ->
    last_pass [Ev (os_Stat marker) (Some e)] (false, Some e)
| last_create_fault e0 tr e :
    os.IsNotExist e0 = true ->
    create_attempt tr (inr e) ->
    os.IsExist e = false ->
    last_pass (Ev (os_Stat marker) (Some e0) :: tr) (false, Some e)
| last_won e0 tr f cl :
    os.IsNotExist e0 = true ->
    create_attempt tr (inl f) ->
    last_pass (Ev (os_Stat marker) (Some e0) :: tr ++ [Ev (file_Close f) cl])
      (true, None).

End Passes.

(** How a run can end: on the exclusive create of the marker followed by the
    close of its handle, or on a call whose answer carries the error [e]. *)
Definition ends_with_create (marker : string) (tr : list Event) : Prop :=
  exists pre f cl,
    tr = pre ++ [Ev (os_OpenFile marker
                       (Z.lor (Z.lor os.O_RDWR os.O_CREATE) os.O_EXCL) 384) (inl f);
                 Ev (file_Close f) cl].

Definition ends_with_error (e : error) (tr : list Event) : Prop :=
  exists pre ev, tr = pre ++ [ev] /\ event_error ev = Some e.

(** The last path segment of a name, in the specification's words: what
    follows the last separator, or the whole name when it has none. *)
Fixpoint last_segment (name : string) : string :=
  match name with
  | EmptyString => EmptyString
  | String a rest =>
      if has_slash rest then last_segment rest
      else if Ascii.eqb a "/" then rest else name
  end.

(** [k] separators in a row. *)
Fixpoint slashes (k : nat) : string :=
  match k with
  | O => EmptyString
  | S k' => String "/" (slashes k')
  end.

Definition reserved_message : string :=
  "'lock' is a reserved name in the cache, please choose a different file name".

(** ** Further vocabulary for runs *)

(** Nobody has the lock, yet the marker is there. *)
Definition Stuck {W : Type} (present : W -> string -> bool) (marker : string)
    (st : System W) : Prop :=
  Forall (thread_ok marker) (threads st) /\
  holders (threads st) = 0%nat /\
  present (world st) marker = true.

(** A program that never calls [os.Remove]. *)
Fixpoint never_removes {A : Type} (p : Prog A) : Prop :=
  match p with
  | Return _ => True
  | Syscall c k => is_remove c = false /\ forall r, never_removes (k r)
  end.

(** The handle an answer hands out, if it is a successful [os.OpenFile]. *)
Definition event_opened (e : Event) : option File :=
  match ev_call e as c return result c -> option File with
  | os_OpenFile _ _ _ => fun r => match r with inl f => Some f | inr _ => None end
  | _ => fun _ => None
  end (ev_result e).

(** What [OpenFile] does before its last call: stats of [name], and the
    creation of its directory with [os.ModePerm], which succeeded. *)
Definition prelude_event (filepath_Dir : string -> string) (name : string)
    (e : Event) : Prop :=
  match ev_call e as c return result c -> Prop with
  | os_Stat n => fun _ => n = name
  | os_MkdirAll path perm => fun r => path = filepath_Dir name /\ perm = 511 /\ r = None
  | _ => fun _ => False
  end (ev_result e).

(** The flags and permission bits of the calls that take them. *)
Definition modes_are (flag perm : Z) (e : Event) : Prop :=
  match ev_call e with
  | os_OpenFile _ fl pm => fl = flag /\ pm = perm
  | os_MkdirAll _ pm => pm = 511
  | _ => True
  end.

(** What reading the filesystem back relies on: a stat succeeds on what is
    present and fails with a does-not-exist error on what is not, and a
    file that was opened is present. *)
Record StatLaws {W : Type} (sys : Handler W) (present : W -> string -> bool) : Prop := {
  stat_present : forall w name,
    present w name = true -> (sys (os_Stat name) w).1 = None;
  stat_absent : forall w name,
    present w name = false ->
    exists e, (sys (os_Stat name) w).1 = Some e /\ os.IsNotExist e = true;
  open_present : forall w name flag perm f,
    (sys (os_OpenFile name flag perm) w).1 = inl f ->
    present (sys (os_OpenFile name flag perm) w).2 name = true
}.

(** * Properties *)

(** ** Running programs *)

Lemma exec_bind {W A B : Type} (sys : Handler W) (p : Prog A) (f : A -> Prog B) (w : W) :
  exec sys (bind p f) w =
  let '(a, w1, t1) := exec sys p w in
  let '(b, w2, t2) := exec sys (f a) w1 in
  (b, w2, t1 ++ t2).
Proof.
  revert w. induction p as [a | c k IH]; intros w; simpl.
  - destruct (exec sys (f a) w) as [[b w2] t2]. reflexivity.
  - rewrite IH.
    destruct (exec sys (k (sys c w).1) (sys c w).2) as [[a w1] t1].
    destruct (exec sys (f a) w1) as [[b w2] t2]. reflexivity.
Qed.

Lemma exec_call {W : Type} (sys : Handler W) (c : Call) (w : W) :
  exec sys (call c) w = ((sys c w).1, (sys c w).2, [Ev c (sys c w).1]).
Proof. reflexivity. Qed.

(** ** Strings *)

Lemma append_nil (s : string) : "" +:+ s = s.
Proof. reflexivity. Qed.

Lemma append_cons (a : ascii) (s t : string) : String a s +:+ t = String a (s +:+ t).
Proof. reflexivity. Qed.

Ltac simpl_append :=
  repeat first [rewrite append_nil | rewrite append_cons | progress simpl].

Lemma substring_all (s : string) : String.substring 0 (String.length s) s = s.
Proof. induction s as [| a s IH]; simpl; [reflexivity | by rewrite IH]. Qed.

Lemma substring_append (pre suf : string) :
  String.substring (String.length pre) (String.length suf) (pre +:+ suf) = suf.
Proof. induction pre as [| a pre IH]; simpl; [apply substring_all | exact IH]. Qed.

Lemma length_append (a b : string) :
  String.length (a +:+ b) = (String.length a + String.length b)%nat.
Proof. induction a as [| c a IH]; simpl; [reflexivity | by rewrite IH]. Qed.

Lemma substring_split (n : nat) (s : string) :
  (n <= String.length s)%nat ->
  s = String.substring 0 n s +:+ String.substring n (String.length s - n) s.
Proof.
  revert s. induction n as [| n IH]; intros s Hn.
  - rewrite Nat.sub_0_r, substring_all. by destruct s.
  - destruct s as [| a s]; simpl in *; [lia |].
    change (String a s = String a (String.substring 0 n s +:+
                                   String.substring n (String.length s - n) s)).
    f_equal. apply IH. lia.
Qed.

Lemma HasSuffix_spec (s suffix : string) :
  strings.HasSuffix s suffix = true <-> exists pre, s = pre +:+ suffix.
Proof.
  unfold strings.HasSuffix. rewrite andb_true_iff, Nat.leb_le, String.eqb_eq.
  split.
  - intros [Hlen Hsub].
    exists (String.substring 0 (String.length s - String.length suffix) s).
    pose proof (substring_split (String.length s - String.length suffix) s) as H.
    replace (String.length s - (String.length s - String.length suffix))%nat
      with (String.length suffix) in H by lia.
    rewrite Hsub in H. apply H. lia.
  - intros [pre ->]. rewrite length_append. split; [lia |].
    replace (String.length pre + String.length suffix - String.length suffix)%nat
      with (String.length pre) by lia.
    apply substring_append.
Qed.

Lemma stripLeftSlash_trim (name : string) :
  stripLeftSlash name = strings.trimLeftByte name "/".
Proof. by destruct name. Qed.

(** [stripLeftSlash] removes the leading separators, all of them and nothing
    else. *)
Lemma stripLeftSlash_spec (name : string) :
  (exists k, name = slashes k +:+ stripLeftSlash name) /\
  match stripLeftSlash name with
  | String a _ => a <> "/"%char
  | EmptyString => True
  end.
Proof.
  rewrite stripLeftSlash_trim. induction name as [| a name [[k IHk] IHh]]; simpl.
  - split; [by exists 0%nat | done].
  - destruct (Ascii.eqb_spec a "/") as [-> | Hne].
    + split; [| exact IHh]. exists (S k).
      change (String "/" name =
              String "/" (slashes k +:+ strings.trimLeftByte name "/")).
      by f_equal.
    + split; [by exists 0%nat | done].
Qed.

Lemma stripLeftSlash_slashes (k : nat) (name : string) :
  stripLeftSlash (slashes k +:+ name) = stripLeftSlash name.
Proof.
  rewrite !stripLeftSlash_trim. induction k as [| k IH]; [reflexivity | exact IH].
Qed.

Lemma has_slash_append (a b : string) :
  has_slash (a +:+ b) = has_slash a || has_slash b.
Proof.
  induction a as [| c a IH]; rewrite ?append_nil, ?append_cons; simpl; [reflexivity |].
  by rewrite IH, orb_assoc.
Qed.

Lemma last_segment_append (pre seg : string) :
  has_slash seg = false -> last_segment (pre +:+ "/" +:+ seg) = seg.
Proof.
  intros Hseg. induction pre as [| a pre IH]; simpl_append.
  - by rewrite Hseg.
  - rewrite has_slash_append. simpl_append. by rewrite orb_true_r.
Qed.

Lemma last_segment_split (name : string) :
  has_slash name = true ->
  exists pre, name = pre +:+ "/" +:+ last_segment name.
Proof.
  induction name as [| a name IH]; simpl; [done |].
  destruct (has_slash name) eqn:Hs.
  - intros _. destruct (IH eq_refl) as [pre Hpre].
    exists (String a pre). rewrite append_cons. by rewrite <- Hpre.
  - rewrite orb_false_r. intros Ha. rewrite Ha.
    apply Ascii.eqb_eq in Ha. subst a. by exists EmptyString.
Qed.

(** ** The reserved name *)

Lemma isReservedName_rejects (name : string) :
  isReservedName name = Some (InvalidCacheFileName reserved_message) <->
  exists pre, name = pre +:+ "/lock".
Proof.
  rewrite <- HasSuffix_spec. unfold isReservedName.
  destruct (strings.HasSuffix name "/lock"); split; done.
Qed.

Lemma isReservedName_accepts (name : string) :
  isReservedName name = None <-> ~ exists pre, name = pre +:+ "/lock".
Proof.
  rewrite <- HasSuffix_spec. unfold isReservedName.
  destruct (strings.HasSuffix name "/lock"); split; done.
Qed.

(** In terms of path segments: a name is rejected exactly when it has a
    separator and its last segment is "lock". *)
Lemma isReservedName_segments (name : string) :
  isReservedName name <> None <->
  has_slash name = true /\ last_segment name = "lock".
Proof.
  split.
  - intros H. destruct (strings.HasSuffix name "/lock") eqn:E.
    + apply HasSuffix_spec in E as [pre ->]. split.
      * rewrite has_slash_append. change (has_slash "/lock") with true.
        by rewrite orb_true_r.
      * by apply (last_segment_append pre "lock").
    + exfalso. apply H. unfold isReservedName. by rewrite E.
  - intros [Hs Hl]. destruct (last_segment_split name Hs) as [pre Hpre].
    rewrite Hl in Hpre.
    assert (isReservedName name = Some (InvalidCacheFileName reserved_message)) as Hr;
      [| by rewrite Hr].
    apply isReservedName_rejects. by exists pre.
Qed.

(** Every name whose last segment differs from "lock" is accepted. *)
Lemma isReservedName_other_segment (name : string) :
  last_segment name <> "lock" -> isReservedName name = None.
Proof.
  intros Hne. destruct (isReservedName name) eqn:E; [| done].
  exfalso. apply Hne. apply isReservedName_segments. by rewrite E.
Qed.

(** C5, at the input where the code departs from it: the last segment of the
    bare name "lock" is the reserved marker, yet [isReservedName] accepts it,
    so [OpenCacheFile] goes on to open /var/cache/lock and [RemoveCacheFile]
    to remove it; the same path spelled "/lock" is rejected. *)
Theorem isReservedName_accepts_bare_lock (filepath_Dir : string -> string) :
  last_segment "lock" = "lock" /\
  isReservedName "lock" = None /\
  OpenCacheFile filepath_Dir "lock" = openFile filepath_Dir "/var/cache/lock" /\
  RemoveCacheFile "lock" = call (os_Remove "/var/cache/lock") /\
  isReservedName "/lock" = Some (InvalidCacheFileName reserved_message) /\
  cacheDir +:+ stripLeftSlash "/lock" = cacheDir +:+ stripLeftSlash "lock".
Proof. repeat split. Qed.

(** ** The cache-entry operations and reserved names *)

(** [OpenCacheFile] refuses a name ending in "/lock" without a single call. *)
Lemma OpenCacheFile_reserved (filepath_Dir : string -> string)
    {W : Type} (sys : Handler W) (w : W) (name : string) :
  (exists pre, name = pre +:+ "/lock") ->
  exec sys (OpenCacheFile filepath_Dir name) w =
  (inr (InvalidCacheFileName reserved_message), w, []).
Proof.
  intros H. apply isReservedName_rejects in H.
  unfold OpenCacheFile. by rewrite H.
Qed.

(** So does [RemoveCacheFile]. *)
Lemma RemoveCacheFile_reserved {W : Type} (sys : Handler W) (w : W) (name : string) :
  (exists pre, name = pre +:+ "/lock") ->
  exec sys (RemoveCacheFile name) w =
  (Some (InvalidCacheFileName reserved_message), w, []).
Proof.
  intros H. apply isReservedName_rejects in H.
  unfold RemoveCacheFile. by rewrite H.
Qed.

(** [CheckCacheFile] never consults [isReservedName]: whatever the name, it
    stats the resolved path and answers from that alone. *)
Lemma CheckCacheFile_always_stats {W : Type} (sys : Handler W) (w : W) (name : string) :
  trace (exec sys (CheckCacheFile name) w) =
  [Ev (os_Stat (cacheDir +:+ stripLeftSlash name))
      (sys (os_Stat (cacheDir +:+ stripLeftSlash name)) w).1].
Proof.
  unfold CheckCacheFile, doesExist. simpl.
  destruct (sys (os_Stat (cacheDir +:+ stripLeftSlash name)) w) as [[e |] w']; simpl;
    [destruct (os.IsNotExist e) |]; reflexivity.
Qed.

(** C3, at the input where the code departs from it: "a/lock" ends in the
    reserved suffix and [OpenCacheFile] and [RemoveCacheFile] refuse it
    before any call, but [CheckCacheFile] stats /var/cache/a/lock and reports
    what the filesystem says ([false] with no error on a filesystem without
    that file), not an invalid-name failure. *)
Theorem CheckCacheFile_reserved_reaches_filesystem
    (filepath_Dir : string -> string) {W : Type} (sys : Handler W) (w : W) :
  isReservedName "a/lock" = Some (InvalidCacheFileName reserved_message) /\
  exec sys (OpenCacheFile filepath_Dir "a/lock") w =
    (inr (InvalidCacheFileName reserved_message), w, []) /\
  exec sys (RemoveCacheFile "a/lock") w =
    (Some (InvalidCacheFileName reserved_message), w, []) /\
  trace (exec sys (CheckCacheFile "a/lock") w) =
    [Ev (os_Stat "/var/cache/a/lock") (sys (os_Stat "/var/cache/a/lock") w).1] /\
  value (exec memfs (CheckCacheFile "a/lock") empty_fs) = (false, None).
Proof.
  split; [reflexivity |]. split; [reflexivity |]. split; [reflexivity |].
  split; [apply (CheckCacheFile_always_stats sys w "a/lock") | reflexivity].
Qed.

(** ** The existence check *)

(** C6: the existence check answers in three ways, decided by the one
    [os.Stat] it makes: [true] without error when the stat succeeds, [false]
    without error when the stat fails with a does-not-exist error, [false]
    with that very error when the stat fails otherwise; never [true] with an
    error.  [CheckCacheFile] is this check on the resolved cache path. *)
Theorem doesExist_three_way {W : Type} (sys : Handler W) (name : string) (w : W) :
  let st := (sys (os_Stat name) w).1 in
  let r := exec sys (doesExist name) w in
  value r = match st with
            | None => (true, None)
            | Some e => if os.IsNotExist e then (false, None) else (false, Some e)
            end /\
  (forall e, value r <> (true, Some e)) /\
  trace r = [Ev (os_Stat name) st] /\
  final r = (sys (os_Stat name) w).2 /\
  (forall entry,
     exec sys (CheckCacheFile entry) w =
     exec sys (doesExist ("/var/cache/" +:+ stripLeftSlash entry)) w).
Proof.
  simpl. unfold doesExist. simpl.
  destruct (sys (os_Stat name) w) as [[e |] w']; simpl;
    [destruct (os.IsNotExist e) |]; simpl; repeat split; done.
Qed.

(** ** The two copies of the file-access helpers *)

(** C10: the private helpers of the cache package are the public ones of
    utils at permission 0600 (= 384): as programs, and so in every run. *)
Theorem cache_helpers_equal_utils (filepath_Dir : string -> string)
    {W : Type} (sys : Handler W) (w : W) (name : string) (flags : Z) :
  open filepath_Dir name flags = OpenFile filepath_Dir name flags 384 /\
  doesExist name = DoesFileExist name /\
  exec sys (open filepath_Dir name flags) w =
    exec sys (OpenFile filepath_Dir name flags 384) w /\
  exec sys (doesExist name) w = exec sys (DoesFileExist name) w.
Proof. repeat split. Qed.

(** ** The small filesystem obeys the laws *)

Lemma has_bits_create (flag : Z) :
  has_bits flag (Z.lor os.O_CREATE os.O_EXCL) = true -> has_bits flag os.O_CREATE = true.
Proof.
  unfold has_bits. rewrite !Z.eqb_eq. intros H.
  change os.O_CREATE with (Z.land (Z.lor os.O_CREATE os.O_EXCL) os.O_CREATE) at 1.
  by rewrite Z.land_assoc, H.
Qed.

Lemma memfs_laws : FsLaws memfs mem_present.
Proof.
  split.
  - intros w name flag perm f Hx. unfold mem_present. simpl.
    destruct (decide (name ∈ files w)) as [Hin | Hout].
    + rewrite Hx. simpl. done.
    + rewrite (has_bits_create flag Hx). simpl. intros _. split.
      * by apply bool_decide_eq_false.
      * apply bool_decide_eq_true. set_solver.
  - intros c w name Hc. unfold mem_present. rewrite !bool_decide_eq_true.
    intros Hin. destruct c as [n | p m | n fl m | n | f | d]; simpl; try done.
    + destruct (decide (n ∈ files w)).
      * by destruct (has_bits fl (Z.lor os.O_CREATE os.O_EXCL)).
      * destruct (has_bits fl os.O_CREATE); simpl; [set_solver | done].
    + by destruct (Hc n).
  - intros w name. unfold mem_present. rewrite bool_decide_eq_false. intros Hout.
    simpl. destruct (decide (name ∈ files w)); [done |].
    by eexists.
  - intros w name. unfold mem_present. simpl.
    destruct (decide (name ∈ files w)); [| done].
    intros _. apply bool_decide_eq_false. simpl.
    apply not_elem_of_difference. right. by apply elem_of_singleton.
Qed.

(** ** Releasing *)

Lemma exec_UnlockCacheFile {W : Type} (sys : Handler W) (name : string)
    (timeout : option Duration) (w : W) :
  let P := lockDir +:+ stripLeftSlash name in
  let w1 := match timeout with
            | Some d => (sys (time_Sleep d) w).2
            | None => w
            end in
  exec sys (UnlockCacheFile name timeout) w =
  (match (sys (os_Remove P) w1).1 with
   | Some e => (false, Some e)
   | None => (true, None)
   end,
   (sys (os_Remove P) w1).2,
   match timeout with
   | Some d => [Ev (time_Sleep d) (sys (time_Sleep d) w).1]
   | None => []
   end ++ [Ev (os_Remove P) (sys (os_Remove P) w1).1]).
Proof.
  simpl. unfold UnlockCacheFile. destruct timeout as [d |]; simpl.
  - destruct (sys (time_Sleep d) w) as [u w1]; simpl.
    by destruct (sys (os_Remove (lockDir +:+ stripLeftSlash name)) w1) as [[e |] w2].
  - by destruct (sys (os_Remove (lockDir +:+ stripLeftSlash name)) w) as [[e |] w2].
Qed.

(** C7: [UnlockCacheFile] returns [true] exactly when its removal of the
    marker succeeds and otherwise [false] with the removal's own error; so
    with the marker missing it fails with the filesystem's does-not-exist
    error, and a second release right after a successful one fails. *)
Theorem UnlockCacheFile_missing_marker {W : Type} (sys : Handler W)
    (present : W -> string -> bool) (laws : FsLaws sys present)
    (name : string) (timeout : option Duration) (w : W) :
  let P := "/var/cache/lock/" +:+ stripLeftSlash name in
  let w1 := match timeout with
            | Some d => (sys (time_Sleep d) w).2
            | None => w
            end in
  let r := exec sys (UnlockCacheFile name timeout) w in
  (value r = (true, None) <-> (sys (os_Remove P) w1).1 = None) /\
  (forall e, (sys (os_Remove P) w1).1 = Some e -> value r = (false, Some e)) /\
  (present w1 P = false ->
   exists e, value r = (false, Some e) /\
             (sys (os_Remove P) w1).1 = Some e /\ os.IsNotExist e = true) /\
  (value r = (true, None) ->
   exists e, value (exec sys (UnlockCacheFile name None) (final r)) = (false, Some e)).
Proof.
  intros P w1 r.
  assert (Hr : r = (match (sys (os_Remove P) w1).1 with
                    | Some e => (false, Some e)
                    | None => (true, None)
                    end,
                    (sys (os_Remove P) w1).2,
                    match timeout with
                    | Some d => [Ev (time_Sleep d) (sys (time_Sleep d) w).1]
                    | None => []
                    end ++ [Ev (os_Remove P) (sys (os_Remove P) w1).1]))
    by apply exec_UnlockCacheFile.
  assert (Hmissing : forall w0, present w0 P = false ->
            exists e, (sys (os_Remove P) w0).1 = Some e /\ os.IsNotExist e = true)
    by (intros w0; apply (remove_absent sys present laws)).
  pose proof (remove_gone sys present laws w1 P) as Hgone.
  clearbody r. subst r. unfold value, final. simpl.
  destruct (sys (os_Remove P) w1) as [[e |] w2] eqn:Erm; simpl in *.
  - repeat split; try done.
    + intros e' [= ->]. reflexivity.
    + intros Habs. destruct (Hmissing w1 Habs) as (e' & He' & Hne).
      rewrite Erm in He'. simpl in He'. injection He' as ->. by exists e'.
  - repeat split; try done.
    + intros Habs. destruct (Hmissing w1 Habs) as (e' & He' & Hne).
      rewrite Erm in He'. done.
    + intros _. destruct (Hmissing w2 (Hgone eq_refl)) as (e' & He' & _).
      exists e'. change (lockDir +:+ stripLeftSlash name) with P.
      destruct (sys (os_Remove P) w2) as [[e2 |] w3]; simpl in *; [| done].
      by injection He' as ->.
Qed.

(** C8: with a delay, [UnlockCacheFile] makes exactly two calls, the sleep
    for that delay and then the removal of the marker, and the removal runs
    in the world the sleep hands back, in which a marker that was present
    is still present; without a delay the removal is its only call. *)
Theorem UnlockCacheFile_sleeps_before_removing {W : Type} (sys : Handler W)
    (present : W -> string -> bool) (laws : FsLaws sys present)
    (name : string) (d : Duration) (w : W) :
  let P := "/var/cache/lock/" +:+ stripLeftSlash name in
  let slept := sys (time_Sleep d) w in
  trace (exec sys (UnlockCacheFile name (Some d)) w) =
    [Ev (time_Sleep d) slept.1; Ev (os_Remove P) (sys (os_Remove P) slept.2).1] /\
  final (exec sys (UnlockCacheFile name (Some d)) w) = (sys (os_Remove P) slept.2).2 /\
  (present w P = true -> present slept.2 P = true) /\
  trace (exec sys (UnlockCacheFile name None) w) =
    [Ev (os_Remove P) (sys (os_Remove P) w).1] /\
  final (exec sys (UnlockCacheFile name None) w) = (sys (os_Remove P) w).2.
Proof.
  intros P slept.
  pose proof (exec_UnlockCacheFile sys name (Some d) w) as H1.
  pose proof (exec_UnlockCacheFile sys name None w) as H2.
  cbv zeta in H1, H2. rewrite H1, H2. repeat split.
  intros Hp. by apply (keeps_files sys present laws).
Qed.

(** ** Which paths the operations touch *)

Ltac exec_step sys :=
  match goal with
  | |- context [sys ?c ?w] => destruct (sys c w) as [? ?]; simpl in *
  | |- context [match ?x with _ => _ end] => is_var x; destruct x; simpl in *
  | |- context [if os.IsNotExist ?e then _ else _] =>
      destruct (os.IsNotExist e) eqn:?; simpl in *
  | |- context [if os.IsExist ?e then _ else _] =>
      destruct (os.IsExist e) eqn:?; simpl in *
  end.

Section Paths.

Variable filepath_Dir : string -> string.
Context {W : Type} (sys : Handler W).

Lemma doesExist_trace (P : string) (w : W) :
  trace (exec sys (doesExist P) w) = [Ev (os_Stat P) (sys (os_Stat P) w).1].
Proof. unfold doesExist. simpl. repeat exec_step sys; reflexivity. Qed.

Lemma open_on_path (P : string) (flags : Z) (w : W) :
  Forall (on_path filepath_Dir P) (trace (exec sys (open filepath_Dir P flags) w)) /\
  first_call (trace (exec sys (open filepath_Dir P flags) w)) = Some (os_Stat P).
Proof.
  unfold open, doesExist. simpl.
  repeat exec_step sys; (split; [repeat constructor | reflexivity]).
Qed.

(** One pass of the loop, by the answers of its two steps. *)
Lemma exec_body (P : string) (w : W) :
  exec sys (LockCacheFile_body filepath_Dir P) w =
  let '(r, w1, t1) := exec sys (doesExist P) w in
  match r with
  | (true, None) =>
      (None, (sys (time_Sleep 1000) w1).2,
       t1 ++ [Ev (time_Sleep 1000) (sys (time_Sleep 1000) w1).1])
  | (_, Some e) => (Some (false, Some e), w1, t1)
  | (false, None) =>
      let '(o, w2, t2) := exec sys (openExclusiveFile filepath_Dir P) w1 in
      match o with
      | inl f =>
          (Some (true, None), (sys (file_Close f) w2).2,
           t1 ++ t2 ++ [Ev (file_Close f) (sys (file_Close f) w2).1])
      | inr e =>
          (if os.IsExist e then None else Some (false, Some e), w2, t1 ++ t2)
      end
  end.
Proof.
  unfold LockCacheFile_body. rewrite exec_bind.
  destruct (exec sys (doesExist P) w) as [[[ok err] w1] t1].
  destruct ok, err as [e |]; cbv beta iota zeta delta [andb negb isNil].
  - simpl. by rewrite app_nil_r.
  - reflexivity.
  - simpl. by rewrite app_nil_r.
  - rewrite exec_bind.
    destruct (exec sys (openExclusiveFile filepath_Dir P) w1) as [[[f | e] w2] t2].
    + reflexivity.
    + destruct (os.IsExist e); simpl; by rewrite app_nil_r.
Qed.

Lemma body_on_path (P : string) (w : W) :
  Forall (on_path filepath_Dir P)
    (trace (exec sys (LockCacheFile_body filepath_Dir P) w)) /\
  first_call (trace (exec sys (LockCacheFile_body filepath_Dir P) w)) = Some (os_Stat P).
Proof.
  rewrite exec_body.
  pose proof (doesExist_trace P w) as Hd.
  destruct (exec sys (doesExist P) w) as [[[ok err] w1] t1].
  unfold trace in Hd. simpl in Hd. subst t1.
  assert (Hstat : Forall (on_path filepath_Dir P)
                    [Ev (os_Stat P) (sys (os_Stat P) w).1]) by repeat constructor.
  destruct ok, err as [e |]; unfold trace; cbn [snd fst app first_call ev_call];
    try (split; [repeat constructor | reflexivity]).
  destruct (open_on_path P (Z.lor (Z.lor os.O_RDWR os.O_CREATE) os.O_EXCL) w1)
    as [Ho _].
  fold (openExclusiveFile filepath_Dir P) in Ho.
  destruct (exec sys (openExclusiveFile filepath_Dir P) w1) as [[[f | e] w2] t2];
    unfold trace in Ho; cbn [snd fst] in Ho; cbn [snd fst app first_call ev_call].
  - split; [| reflexivity].
    constructor; [done |]. apply Forall_app. split; [done | repeat constructor].
  - split; [| reflexivity]. by constructor.
Qed.

Lemma loop_S (P : string) (fuel : nat) :
  LockCacheFile_loop filepath_Dir (S fuel) P =
  bind (LockCacheFile_body filepath_Dir P)
       (fun r => match r with
                 | None => LockCacheFile_loop filepath_Dir fuel P
                 | Some res => Return (Some res)
                 end).
Proof. reflexivity. Qed.

(** The loop, by its first pass. *)
Lemma exec_loop_S (P : string) (fuel : nat) (w : W) :
  exec sys (LockCacheFile_loop filepath_Dir (S fuel) P) w =
  let '(r, w1, t1) := exec sys (LockCacheFile_body filepath_Dir P) w in
  match r with
  | Some res => (Some res, w1, t1)
  | None =>
      let '(r2, w2, t2) := exec sys (LockCacheFile_loop filepath_Dir fuel P) w1 in
      (r2, w2, t1 ++ t2)
  end.
Proof.
  rewrite loop_S, exec_bind.
  destruct (exec sys (LockCacheFile_body filepath_Dir P) w) as [[[res |] w1] t1].
  - simpl. by rewrite app_nil_r.
  - reflexivity.
Qed.

Lemma loop_on_path (P : string) (fuel : nat) (w : W) :
  Forall (on_path filepath_Dir P)
    (trace (exec sys (LockCacheFile_loop filepath_Dir fuel P) w)).
Proof.
  revert w. induction fuel as [| fuel IH]; intros w; [constructor |].
  rewrite exec_loop_S.
  destruct (body_on_path P w) as [Hb _].
  destruct (exec sys (LockCacheFile_body filepath_Dir P) w) as [[[res |] w1] t1];
    unfold trace in Hb; simpl in Hb; [done |].
  specialize (IH w1).
  destruct (exec sys (LockCacheFile_loop filepath_Dir fuel P) w1) as [[r w2] t2].
  apply Forall_app. split; done.
Qed.

Lemma loop_first_call (P : string) (fuel : nat) (w : W) :
  first_call (trace (exec sys (LockCacheFile_loop filepath_Dir (S fuel) P) w))
  = Some (os_Stat P).
Proof.
  rewrite exec_loop_S.
  destruct (body_on_path P w) as [_ Hb].
  destruct (exec sys (LockCacheFile_body filepath_Dir P) w) as [[[res |] w1] t1];
    unfold trace in Hb; simpl in Hb; [done |].
  destruct (exec sys (LockCacheFile_loop filepath_Dir fuel P) w1) as [[r w2] t2].
  by destruct t1.
Qed.

End Paths.

(** C9: the name is used with its leading separators stripped, all of them
    and nothing else; every call of a cache-entry operation names
    /var/cache/<name'> and every call of a lock operation names
    /var/cache/lock/<name'> (the directory-creating call names the directory
    of that path); and each operation that gets past name validation does go
    to that path. *)
Theorem operations_resolve_paths (filepath_Dir : string -> string)
    {W : Type} (sys : Handler W) (name : string) (fuel : nat)
    (timeout : option Duration) (w : W) :
  let name' := stripLeftSlash name in
  let entry := "/var/cache/" +:+ name' in
  let marker := "/var/cache/lock/" +:+ name' in
  (exists k, name = slashes k +:+ name') /\
  match name' with String a _ => a <> "/"%char | EmptyString => True end /\
  Forall (on_path filepath_Dir entry)
    (trace (exec sys (OpenCacheFile filepath_Dir name) w)) /\
  Forall (on_path filepath_Dir entry) (trace (exec sys (RemoveCacheFile name) w)) /\
  Forall (on_path filepath_Dir entry) (trace (exec sys (CheckCacheFile name) w)) /\
  Forall (on_path filepath_Dir marker)
    (trace (exec sys (LockCacheFile filepath_Dir fuel name) w)) /\
  Forall (on_path filepath_Dir marker)
    (trace (exec sys (UnlockCacheFile name timeout) w)) /\
  first_call (trace (exec sys (OpenCacheFile filepath_Dir name) w)) =
    match isReservedName name with
    | None => Some (os_Stat entry)
    | Some _ => None
    end /\
  first_call (trace (exec sys (RemoveCacheFile name) w)) =
    match isReservedName name with
    | None => Some (os_Remove entry)
    | Some _ => None
    end /\
  first_call (trace (exec sys (CheckCacheFile name) w)) = Some (os_Stat entry) /\
  first_call (trace (exec sys (LockCacheFile filepath_Dir (S fuel) name) w)) =
    Some (os_Stat marker) /\
  (exists r, last (trace (exec sys (UnlockCacheFile name timeout) w)) =
             Some (Ev (os_Remove marker) r)).
Proof.
  intros name' entry marker.
  destruct (stripLeftSlash_spec name) as [Hk Hh].
  split; [exact Hk |]. split; [exact Hh |].
  pose proof (exec_UnlockCacheFile sys name timeout w) as Hu. cbv zeta in Hu.
  change (lockDir +:+ stripLeftSlash name) with marker in Hu.
  repeat split.
  - unfold OpenCacheFile. destruct (isReservedName name); simpl; [constructor |].
    apply (open_on_path filepath_Dir sys entry).
  - unfold RemoveCacheFile. destruct (isReservedName name); simpl; [constructor |].
    repeat constructor.
  - rewrite CheckCacheFile_always_stats. repeat constructor.
  - apply (loop_on_path filepath_Dir sys marker).
  - rewrite Hu. unfold trace. simpl. destruct timeout; repeat constructor.
  - unfold OpenCacheFile. destruct (isReservedName name); simpl; [reflexivity |].
    apply (open_on_path filepath_Dir sys entry).
  - unfold RemoveCacheFile. by destruct (isReservedName name).
  - by rewrite CheckCacheFile_always_stats.
  - apply (loop_first_call filepath_Dir sys marker).
  - rewrite Hu. unfold trace. simpl. eexists. by rewrite last_snoc.
Qed.

(** ** What the caller of [LockCacheFile] gets *)

Section Outcome.

Variable filepath_Dir : string -> string.
Context {W : Type} (sys : Handler W).
Variable marker : string.

Lemma exec_doesExist (P : string) (w : W) :
  exec sys (doesExist P) w =
  (match (sys (os_Stat P) w).1 with
   | None => (true, None)
   | Some e => if os.IsNotExist e then (false, None) else (false, Some e)
   end,
   (sys (os_Stat P) w).2,
   [Ev (os_Stat P) (sys (os_Stat P) w).1]).
Proof. unfold doesExist. simpl. repeat exec_step sys; reflexivity. Qed.

Lemma open_result_is_last (P : string) (flags : Z) (w : W) :
  match value (exec sys (open filepath_Dir P flags) w) with
  | inl f =>
      last (trace (exec sys (open filepath_Dir P flags) w)) =
      Some (Ev (os_OpenFile P flags filePerms) (inl f))
  | inr e =>
      exists ev, last (trace (exec sys (open filepath_Dir P flags) w)) = Some ev /\
                 event_error ev = Some e
  end.
Proof.
  unfold open, doesExist. simpl.
  repeat exec_step sys; unfold value, trace; simpl;
    try match goal with |- match ?r with _ => _ end => destruct r end;
    first [reflexivity | by eexists].
Qed.

Lemma body_result_trace (w : W) :
  match value (exec sys (LockCacheFile_body filepath_Dir marker) w) with
  | None => True
  | Some (true, None) =>
      ends_with_create marker (trace (exec sys (LockCacheFile_body filepath_Dir marker) w))
  | Some (false, Some e) =>
      ends_with_error e (trace (exec sys (LockCacheFile_body filepath_Dir marker) w))
  | Some _ => False
  end.
Proof.
  rewrite exec_body, exec_doesExist.
  destruct (sys (os_Stat marker) w) as [[e |] w1]; cbn [fst snd].
  - destruct (os.IsNotExist e).
    + pose proof (open_result_is_last marker
                    (Z.lor (Z.lor os.O_RDWR os.O_CREATE) os.O_EXCL) w1) as Ho.
      fold (openExclusiveFile filepath_Dir marker) in Ho.
      destruct (exec sys (openExclusiveFile filepath_Dir marker) w1)
        as [[[f | e'] w2] t2]; unfold value, trace in *; cbn [fst snd] in *.
      * apply last_Some in Ho as [pre ->].
        exists (Ev (os_Stat marker) (Some e) :: pre), f, (sys (file_Close f) w2).1.
        by rewrite <- app_assoc.
      * destruct Ho as (ev & Hl & He). apply last_Some in Hl as [pre ->].
        destruct (os.IsExist e'); [done |].
        exists (Ev (os_Stat marker) (Some e) :: pre), ev. done.
    + unfold value, trace. cbn [fst snd].
      by exists [], (Ev (os_Stat marker) (Some e)).
  - done.
Qed.

Lemma loop_result_trace (fuel : nat) (w : W) :
  match value (exec sys (LockCacheFile_loop filepath_Dir fuel marker) w) with
  | None => True
  | Some (true, None) =>
      ends_with_create marker
        (trace (exec sys (LockCacheFile_loop filepath_Dir fuel marker) w))
  | Some (false, Some e) =>
      ends_with_error e
        (trace (exec sys (LockCacheFile_loop filepath_Dir fuel marker) w))
  | Some _ => False
  end.
Proof.
  revert w. induction fuel as [| fuel IH]; intros w; [done |].
  rewrite exec_loop_S.
  pose proof (body_result_trace w) as Hb.
  destruct (exec sys (LockCacheFile_body filepath_Dir marker) w) as [[[res |] w1] t1].
  - exact Hb.
  - clear Hb. specialize (IH w1).
    destruct (exec sys (LockCacheFile_loop filepath_Dir fuel marker) w1)
      as [[[[[|] [e |]] |] w2] t2]; unfold value, trace in *; cbn [fst snd] in *;
      try done.
    + destruct IH as (pre & f & cl & ->). exists (t1 ++ pre), f, cl.
      by rewrite app_assoc.
    + destruct IH as (pre & ev & -> & He). exists (t1 ++ pre), ev.
      by rewrite app_assoc.
Qed.

End Outcome.

(** ** The passes of a run of [LockCacheFile] *)

Section Run.

Variable filepath_Dir : string -> string.
Context {W : Type} (sys : Handler W).
Variable marker : string.

Lemma open_attempt (w : W) :
  create_attempt filepath_Dir marker
    (trace (exec sys (openExclusiveFile filepath_Dir marker) w))
    (value (exec sys (openExclusiveFile filepath_Dir marker) w)).
Proof.
  unfold openExclusiveFile, open, doesExist, value, trace. simpl.
  repeat exec_step sys; by constructor.
Qed.

Lemma body_shape (w : W) :
  match value (exec sys (LockCacheFile_body filepath_Dir marker) w) with
  | None =>
      retried_pass filepath_Dir marker
        (trace (exec sys (LockCacheFile_body filepath_Dir marker) w))
  | Some res =>
      last_pass filepath_Dir marker
        (trace (exec sys (LockCacheFile_body filepath_Dir marker) w)) res
  end.
Proof.
  rewrite exec_body, (exec_doesExist sys).
  destruct (sys (os_Stat marker) w) as [[e |] w1]; cbn [fst snd].
  - destruct (os.IsNotExist e) eqn:Hne.
    + pose proof (open_attempt w1) as Ho.
      destruct (exec sys (openExclusiveFile filepath_Dir marker) w1)
        as [[[f | e'] w2] t2]; unfold value, trace in *; cbn [fst snd] in *.
      * by apply last_won.
      * destruct (os.IsExist e') eqn:Hx.
        -- by apply (retried_exists _ _ e t2 e').
        -- by apply last_create_fault.
    + unfold value, trace. cbn [fst snd]. by apply last_check_fault.
  - destruct (sys (time_Sleep 1000) w1) as [[] w2].
    unfold value, trace. cbn [fst snd]. apply retried_held.
Qed.

(** A run is passes that were retried, then, if the call has returned, the
    pass that ended it. *)
Lemma loop_shape (fuel : nat) (w : W) :
  exists passes,
    Forall (retried_pass filepath_Dir marker) passes /\
    match value (exec sys (LockCacheFile_loop filepath_Dir fuel marker) w) with
    | None =>
        trace (exec sys (LockCacheFile_loop filepath_Dir fuel marker) w) =
          concat passes /\
        length passes = fuel
    | Some res =>
        exists last,
          last_pass filepath_Dir marker last res /\
          trace (exec sys (LockCacheFile_loop filepath_Dir fuel marker) w) =
            concat passes ++ last /\
          (length passes < fuel)%nat
    end.
Proof.
  revert w. induction fuel as [| fuel IH]; intros w; [by exists [] |].
  rewrite exec_loop_S.
  pose proof (body_shape w) as Hb.
  destruct (exec sys (LockCacheFile_body filepath_Dir marker) w) as [[[res |] w1] t1];
    unfold value, trace in Hb; cbn [fst snd] in Hb.
  - exists []. split; [constructor |]. unfold value, trace. cbn [fst snd].
    exists t1. split; [done |]. split; [done | simpl; lia].
  - destruct (IH w1) as (passes & Hp & Hrest).
    destruct (exec sys (LockCacheFile_loop filepath_Dir fuel marker) w1)
      as [[r2 w2] t2]. unfold value, trace in *. cbn [fst snd] in *.
    exists (t1 :: passes). split; [by constructor |].
    destruct r2 as [res |].
    + destruct Hrest as (last & Hl & -> & Hlen).
      exists last. split; [done |]. split; [by rewrite app_assoc | simpl; lia].
    + destruct Hrest as [-> Hlen]. split; [done | simpl; lia].
Qed.

(** Once the call has returned, unrolling the loop further changes nothing. *)
Lemma loop_more_fuel (fuel fuel' : nat) (w : W) (res : bool * option error) :
  value (exec sys (LockCacheFile_loop filepath_Dir fuel marker) w) = Some res ->
  (fuel <= fuel')%nat ->
  exec sys (LockCacheFile_loop filepath_Dir fuel' marker) w =
  exec sys (LockCacheFile_loop filepath_Dir fuel marker) w.
Proof.
  revert fuel' w. induction fuel as [| fuel IH]; intros fuel' w; [done |].
  intros Hv Hle. destruct fuel' as [| fuel']; [lia |].
  rewrite !exec_loop_S in *.
  destruct (exec sys (LockCacheFile_body filepath_Dir marker) w) as [[[r |] w1] t1];
    [done |].
  rewrite (IH fuel' w1); [done | | lia].
  by destruct (exec sys (LockCacheFile_loop filepath_Dir fuel marker) w1)
    as [[r2 w2] t2].
Qed.

End Run.

(** The directory creation that fails with already-exists is retried, pass
    after pass, without a create ever being attempted. *)
Lemma mkdir_exists_spins (fuel : nat) :
  value (exec mkdir_exists_fs (LockCacheFile dir_of fuel "report-cache") tt) = None.
Proof.
  unfold LockCacheFile. induction fuel as [| fuel IH]; [reflexivity |].
  rewrite exec_loop_S.
  change (exec mkdir_exists_fs
            (LockCacheFile_body dir_of (lockDir +:+ stripLeftSlash "report-cache")) tt)
    with (@None (bool * option error), tt,
          [Ev (os_Stat "/var/cache/lock/report-cache")
              (Some (PathError "stat" "/var/cache/lock/report-cache" ENOENT));
           Ev (os_Stat "/var/cache/lock/report-cache")
              (Some (PathError "stat" "/var/cache/lock/report-cache" ENOENT));
           Ev (os_Stat "/var/cache/lock/report-cache")
              (Some (PathError "stat" "/var/cache/lock/report-cache" ENOENT));
           Ev (os_MkdirAll "/var/cache/lock" 511)
              (Some (PathError "mkdir" "/var/cache/lock" EEXIST))]).
  cbv beta iota.
  by destruct (exec mkdir_exists_fs
                 (LockCacheFile_loop dir_of fuel
                    (lockDir +:+ stripLeftSlash "report-cache")) tt)
    as [[r2 w2] t2].
Qed.



(** ** Mutual exclusion *)

Lemma holders_insert (ts : list Thread) (i : nat) (t t' : Thread) :
  ts !! i = Some t ->
  (holders (<[i:=t']> ts) + (if holds t then 1 else 0) =
   holders ts + (if holds t' then 1 else 0))%nat.
Proof.
  revert i. induction ts as [| a ts IH]; intros [| i] Hi; simpl in *; try done.
  - injection Hi as ->. lia.
  - specialize (IH i Hi). lia.
Qed.

Lemma holders_one (ts : list Thread) (i : nat) (t : Thread) :
  ts !! i = Some t -> holds t = true -> (1 <= holders ts)%nat.
Proof.
  revert i. induction ts as [| a ts IH]; intros [| i] Hi Hh; simpl in *; try done.
  - injection Hi as ->. rewrite Hh. lia.
  - specialize (IH i Hi Hh). lia.
Qed.

Lemma holders_two (ts : list Thread) (i j : nat) (ti tj : Thread) :
  i <> j -> ts !! i = Some ti -> ts !! j = Some tj ->
  holds ti = true -> holds tj = true -> (2 <= holders ts)%nat.
Proof.
  revert i j. induction ts as [| a ts IH]; intros [| i] [| j] Hne Hi Hj Hti Htj;
    simpl in *; try done.
  - injection Hi as ->. rewrite Hti. pose proof (holders_one ts j tj Hj Htj). lia.
  - injection Hj as ->. rewrite Htj. pose proof (holders_one ts i ti Hi Hti). lia.
  - assert (i <> j) as Hne' by congruence.
    specialize (IH i j Hne' Hi Hj Hti Htj). lia.
Qed.

Lemma holders_idle (n : nat) : holders (replicate n Idle) = 0%nat.
Proof. induction n as [| n IH]; simpl; [reflexivity | exact IH]. Qed.

Section Exclusion.

Variable filepath_Dir : string -> string.
Context {W : Type} (sys : Handler W) (present : W -> string -> bool).
Hypothesis laws : FsLaws sys present.
Variable name : string.

Abbreviation marker := (lockDir +:+ stripLeftSlash name).

Lemma pre_ok_created (p : Prog (option (bool * option error))) :
  pre_ok marker p -> created p = false.
Proof.
  destruct p as [r | c k]; simpl; [done |]. intros [Hc _]. by destruct c.
Qed.

Lemma post_ok_created (p : Prog (option (bool * option error))) :
  post_ok p -> created p = true.
Proof.
  destruct p as [r | c k]; simpl; [done |]. by intros [[f ->] _].
Qed.

Lemma loop_pre_ok (fuel : nat) :
  pre_ok marker (LockCacheFile_loop filepath_Dir fuel marker).
Proof.
  induction fuel as [| fuel IH]; [done |].
  rewrite loop_S.
  unfold LockCacheFile_body, doesExist, openExclusiveFile, open. simpl.
  repeat first
    [ exact IH
    | progress simpl
    | split
    | intros [? |]
    | intros [? | ?]
    | match goal with
      | |- context [if os.IsNotExist ?e then _ else _] => destruct (os.IsNotExist e)
      end
    | match goal with
      | |- context [if os.IsExist ?e then _ else _] => destruct (os.IsExist e)
      end
    | intro
    | reflexivity
    | by eexists ].
Qed.

Lemma UnlockCacheFile_rel_ok (timeout : option Duration) :
  rel_ok marker (UnlockCacheFile name timeout) /\
  holds (Releasing (UnlockCacheFile name timeout)) = true.
Proof.
  destruct timeout as [d |]; simpl; repeat split; by intros [? |].
Qed.

Lemma not_remove_acquiring (c : Call) :
  acquiring_call marker c -> forall other, c <> os_Remove other.
Proof. by destruct c. Qed.

(** Replacing one process's state keeps the invariant, as long as the lock
    changes hands only by a create where nothing was, and the marker
    otherwise stays while somebody has the lock. *)
Lemma inv_update (st : System W) (i : nat) (t t' : Thread) (w' : W) :
  Inv present marker st ->
  threads st !! i = Some t ->
  thread_ok marker t' ->
  (holds t' = true -> holds t = false ->
   present (world st) marker = false /\ present w' marker = true) ->
  (holds t' = holds t ->
   present (world st) marker = true -> present w' marker = true) ->
  Inv present marker (Sys w' (<[i:=t']> (threads st))).
Proof.
  intros (Hok & Hle & Hpres) Hi Ht' Hacq Hkeep.
  pose proof (holders_insert (threads st) i t t' Hi) as Hcount.
  split; [by apply Forall_insert |]. simpl.
  destruct (holds t') eqn:Hh', (holds t) eqn:Hh.
  - split; [lia |]. intros H1. apply Hkeep; [done |]. apply Hpres. lia.
  - destruct (Hacq eq_refl eq_refl) as [Habsent Hthere].
    assert (holders (threads st) <> 1%nat) by (intros H1; by rewrite (Hpres H1) in Habsent).
    split; [lia | done].
  - split; lia.
  - split; [lia |]. intros H1. apply Hkeep; [done |]. apply Hpres. lia.
Qed.

Lemma inv_step (st : System W) (ic : nat * Choice) :
  Inv present marker st -> Inv present marker (step filepath_Dir sys name st ic).
Proof.
  intros HI. unfold step.
  destruct (threads st !! ic.1) as [t |] eqn:Hi; [| done].
  pose proof HI as (Hok & _ & _).
  pose proof (proj1 (Forall_lookup _ _) Hok _ _ Hi) as Ht.
  destruct t as [| [r | c k] | | [r | c k]]; simpl in *.
  - (* invoke LockCacheFile *)
    pose proof (loop_pre_ok (spins ic.2)) as Hpre.
    apply (inv_update st ic.1 _ _ _ HI Hi).
    + by left.
    + simpl. unfold LockCacheFile. by rewrite (pre_ok_created _ Hpre).
    + done.
  - (* LockCacheFile returns *)
    apply (inv_update st ic.1 _ _ _ HI Hi).
    + by destruct (won r).
    + simpl. by destruct (won r).
    + done.
  - (* a call of LockCacheFile *)
    destruct Ht as [[Hc Hk] | [[f ->] Hk]].
    + specialize (Hk (sys c (world st)).1).
      destruct (creates c (sys c (world st)).1) eqn:Ecr.
      * apply (inv_update st ic.1 _ _ _ HI Hi).
        -- by right.
        -- intros _ _. destruct c as [| | n fl pm | | |]; try done.
           simpl in Hc. destruct Hc as [-> Hx].
           pose proof (excl_create sys present laws (world st) marker fl pm) as Hlaw.
           destruct (sys (os_OpenFile marker fl pm) (world st)) as [[f | e] w2];
             simpl in *; [| done].
           by apply (Hlaw f).
        -- simpl. rewrite (post_ok_created _ Hk). by destruct c.
      * apply (inv_update st ic.1 _ _ _ HI Hi).
        -- by left.
        -- simpl. by rewrite (pre_ok_created _ Hk).
        -- intros _. apply (keeps_files sys present laws).
           by apply not_remove_acquiring.
    + apply (inv_update st ic.1 _ _ _ HI Hi).
      * right. apply Hk.
      * done.
      * intros _. by apply (keeps_files sys present laws).
  - (* invoke UnlockCacheFile *)
    destruct (UnlockCacheFile_rel_ok (delay ic.2)) as [Hrel Hh].
    apply (inv_update st ic.1 _ _ _ HI Hi).
    + done.
    + done.
    + done.
  - (* UnlockCacheFile returns *)
    by apply (inv_update st ic.1 _ _ _ HI Hi).
  - (* a call of UnlockCacheFile *)
    destruct Ht as [Hc Hk]. specialize (Hk (sys c (world st)).1).
    apply (inv_update st ic.1 _ _ _ HI Hi).
    + destruct c as [| | | n | |]; try done; simpl in *.
      match goal with
      | H : is_return ?p |- _ => destruct p; simpl in *; done
      end.
    + done.
    + intros Hh. apply (keeps_files sys present laws).
      destruct c as [| | | n | |]; try done. simpl in *.
      match goal with
      | H : is_return ?p |- _ => destruct p; simpl in *; done
      end.
Qed.

Lemma inv_init (w : W) (n : nat) : Inv present marker (init w n).
Proof.
  unfold Inv, init. simpl. rewrite holders_idle.
  split; [by apply Forall_replicate |]. split; [lia | done].
Qed.

Lemma inv_run (schedule : list (nat * Choice)) (st : System W) :
  Inv present marker st -> Inv present marker (run filepath_Dir sys name st schedule).
Proof.
  revert st. induction schedule as [| ic schedule IH]; intros st HI; [done |].
  simpl. apply IH. by apply inv_step.
Qed.

End Exclusion.

(** C1: processes that contend for the lock of one name through
    [LockCacheFile] and give it up through [UnlockCacheFile], interleaved
    call by call in any order on a filesystem whose exclusive create is
    atomic, never have the lock two at a time: at most one process is between
    its successful exclusive create of the marker and its removal of it, and
    while one is, the marker exists. *)
Theorem LockCacheFile_mutual_exclusion (filepath_Dir : string -> string)
    {W : Type} (sys : Handler W) (present : W -> string -> bool)
    (laws : FsLaws sys present) (name : string) (w : W) (n : nat)
    (schedule : list (nat * Choice)) :
  let st := run filepath_Dir sys name (init w n) schedule in
  (holders (threads st) <= 1)%nat /\
  (forall i j ti tj,
     threads st !! i = Some ti -> threads st !! j = Some tj ->
     holds ti = true -> holds tj = true -> i = j) /\
  (holders (threads st) = 1%nat ->
   present (world st) ("/var/cache/lock/" +:+ stripLeftSlash name) = true).
Proof.
  intros st.
  destruct (inv_run filepath_Dir sys present laws name schedule (init w n)
              (inv_init present name w n)) as (_ & Hle & Hpres).
  fold st in Hle, Hpres.
  split; [exact Hle |]. split; [| exact Hpres].
  intros i j ti tj Hi Hj Hti Htj.
  destruct (decide (i = j)) as [| Hne]; [done |].
  pose proof (holders_two (threads st) i j ti tj Hne Hi Hj Hti Htj). lia.
Qed.

(** Two processes race for "report-cache" on the small filesystem: both
    find the marker absent, both go for the exclusive create, the first one
    wins and enters, the second loses and goes back to waiting. *)
Lemma LockCacheFile_mutual_exclusion_race :
  let go := Choose 3 None in
  let st := run dir_of memfs "report-cache" (init empty_fs 2)
              [(0, go); (1, go); (0, go); (1, go); (0, go); (1, go); (0, go);
               (1, go); (0, go); (1, go); (0, go); (1, go); (0, go); (0, go);
               (1, go); (1, go)]%nat in
  map holds (threads st) = [true; false] /\ (holders (threads st) <= 1)%nat.
Proof.
  split; [vm_compute; reflexivity |].
  exact (proj1 (LockCacheFile_mutual_exclusion dir_of memfs mem_present memfs_laws
                  "report-cache" empty_fs 2 _)).
Defined.

(** ** Acquiring does not validate the name *)

(** C4, as the code has it: [LockCacheFile] strips the leading separators of
    the name and applies no reserved-name rule.  For every name, ending in
    the reserved suffix or not, its first step is the existence check on
    /var/cache/lock/<name'>; an error it returns is the error of its last
    filesystem call, returned with [false], not a failure of its own
    making; and two names with the same stripped form, reserved or not, are
    the same lock. *)
Theorem LockCacheFile_no_name_validation (filepath_Dir : string -> string)
    {W : Type} (sys : Handler W) (name : string) (fuel : nat) (w : W) :
  let marker := "/var/cache/lock/" +:+ stripLeftSlash name in
  let r := exec sys (LockCacheFile filepath_Dir (S fuel) name) w in
  first_call (trace r) = Some (os_Stat marker) /\
  (forall b e, value r = Some (b, Some e) ->
               b = false /\ ends_with_error e (trace r)) /\
  (forall other,
     stripLeftSlash other = stripLeftSlash name ->
     LockCacheFile filepath_Dir (S fuel) other =
     LockCacheFile filepath_Dir (S fuel) name).
Proof.
  intros marker r. split; [| split].
  - apply (loop_first_call filepath_Dir sys marker).
  - intros b e Hv.
    pose proof (loop_result_trace filepath_Dir sys marker (S fuel) w) as Ht.
    unfold r, LockCacheFile in Hv |- *.
    change (lockDir +:+ stripLeftSlash name) with marker in Hv |- *.
    rewrite Hv in Ht. by destruct b.
  - intros other Hs. unfold LockCacheFile. by rewrite Hs.
Qed.

(** C4 as stated fails: "a/lock" ends in the reserved suffix, and on an
    empty filesystem [LockCacheFile] does not refuse it but goes to the
    filesystem, creates /var/cache/lock/a/lock and returns [true]. *)
Lemma LockCacheFile_locks_reserved_name :
  let r := exec memfs (LockCacheFile dir_of 1 "a/lock") empty_fs in
  isReservedName "a/lock" = Some (InvalidCacheFileName reserved_message) /\
  value r = Some (true, None) /\
  first_call (trace r) = Some (os_Stat "/var/cache/lock/a/lock") /\
  mem_present (final r) "/var/cache/lock/a/lock" = true /\
  ~ (exists msg, value r = Some (false, Some (InvalidCacheFileName msg)) /\
                 trace r = []).
Proof.
  vm_compute. repeat split. intros (msg & Hv & _). discriminate Hv.
Qed.

(** ** The theorems at concrete inputs *)

(** Releasing "report-cache" when nobody holds it. *)
Lemma UnlockCacheFile_missing_marker_example :
  exists e,
    value (exec memfs (UnlockCacheFile "report-cache" None) empty_fs) = (false, Some e) /\
    (memfs (os_Remove "/var/cache/lock/report-cache") empty_fs).1 = Some e /\
    os.IsNotExist e = true.
Proof.
  apply (proj1 (proj2 (proj2 (UnlockCacheFile_missing_marker memfs mem_present
                                memfs_laws "report-cache" None empty_fs)))).
  reflexivity.
Defined.

(** Releasing a held "report-cache" with a delay of 100ms: the sleep, then
    the removal, and the marker still there when the sleep is over. *)
Lemma UnlockCacheFile_sleeps_before_removing_example :
  let held := Mem {["/var/cache/lock/report-cache"]} 0 4 in
  trace (exec memfs (UnlockCacheFile "report-cache" (Some 100000000)) held) =
    [Ev (time_Sleep 100000000) tt;
     Ev (os_Remove "/var/cache/lock/report-cache") None] /\
  mem_present (memfs (time_Sleep 100000000) held).2
    "/var/cache/lock/report-cache" = true.
Proof.
  intros held.
  destruct (UnlockCacheFile_sleeps_before_removing memfs mem_present memfs_laws
              "report-cache" 100000000 held) as (Ht & _ & Hp & _).
  split; [exact Ht | apply Hp; reflexivity].
Defined.

(** While somebody else holds the marker the call keeps spinning, however
    long it is unrolled here; on a filesystem that denies the stat it
    returns [false] with that error. *)
Example LockCacheFile_spins_while_held :
  value (exec memfs (LockCacheFile dir_of 5 "report-cache")
           (Mem {["/var/cache/lock/report-cache"]} 0 4)) = None.
Proof. vm_compute. reflexivity. Qed.

Example LockCacheFile_surfaces_stat_error :
  value (exec denied_fs (LockCacheFile dir_of 5 "report-cache") tt) =
  Some (false, Some (PathError "stat" "/var/cache/lock/report-cache" EACCES)).
Proof. reflexivity. Qed.

(** The first stat inside [open] only decides whether to look closer: its
    error is replaced by the answer of the existence check that follows.
    Here that stat is denied, the check after it finds nothing, and the
    call goes on to create the marker. *)
Example open_rechecks_a_failed_stat :
  let r := exec flaky_fs (LockCacheFile dir_of 1 "report-cache") 0%nat in
  value r = Some (true, None) /\
  map event_error (trace r) =
    [Some (PathError "stat" "/var/cache/lock/report-cache" ENOENT);
     Some (PathError "stat" "/var/cache/lock/report-cache" EACCES);
     Some (PathError "stat" "/var/cache/lock/report-cache" ENOENT);
     None; None; None].
Proof. split; reflexivity. Qed.

(** * Further properties of the package *)

(** ** Names and leading separators *)

Lemma stripLeftSlash_fixed (s : string) :
  match s with String a _ => a <> "/"%char | EmptyString => True end ->
  stripLeftSlash s = s.
Proof.
  rewrite stripLeftSlash_trim. destruct s as [| a s]; [done |]. simpl.
  intros Ha. by destruct (Ascii.eqb_spec a "/").
Qed.

Lemma stripLeftSlash_only_slashes (k : nat) : stripLeftSlash (slashes k) = "".
Proof.
  rewrite stripLeftSlash_trim. induction k as [| k IH]; [reflexivity | exact IH].
Qed.

(** Leading separators do not change whether a name ends in "/lock", except
    that they turn the bare name "lock" into such a name. *)
Lemma suffix_under_slashes (k : nat) (name : string) :
  name <> "lock" ->
  (exists pre, slashes k +:+ name = pre +:+ "/lock") ->
  exists pre, name = pre +:+ "/lock".
Proof.
  intros Hne. induction k as [| k IH]; [done |].
  intros [pre Hpre]. apply IH.
  change (slashes (S k)) with (String "/" (slashes k)) in Hpre.
  rewrite append_cons in Hpre.
  destruct pre as [| a pre].
  - rewrite append_nil in Hpre. injection Hpre as Hk.
    destruct k as [| k]; [by rewrite append_nil in Hk |].
    change (slashes (S k)) with (String "/" (slashes k)) in Hk.
    by rewrite append_cons in Hk.
  - rewrite append_cons in Hpre. injection Hpre as _ Hk. by exists pre.
Qed.

Lemma isReservedName_slashes (k : nat) (name : string) :
  name <> "lock" -> isReservedName (slashes k +:+ name) = isReservedName name.
Proof.
  intros Hne. destruct (isReservedName name) as [err |] eqn:E.
  - assert (Hs : exists pre, name = pre +:+ "/lock").
    { apply HasSuffix_spec. unfold isReservedName in E.
      by destruct (strings.HasSuffix name "/lock"). }
    destruct Hs as [pre ->].
    assert (Hr : isReservedName (slashes k +:+ pre +:+ "/lock") =
                 Some (InvalidCacheFileName reserved_message)).
    { apply isReservedName_rejects. exists (slashes k +:+ pre).
      clear. induction k as [| k IH]; [reflexivity |].
      simpl_append. by rewrite IH. }
    rewrite Hr. unfold isReservedName in E.
    by destruct (strings.HasSuffix (pre +:+ "/lock") "/lock").
  - apply isReservedName_accepts. intros Hs.
    apply (suffix_under_slashes k name Hne) in Hs.
    by apply isReservedName_accepts in E.
Qed.

(** X1: a name is read up to its leading separators.  Any number of them in
    front of a name changes nothing for [CheckCacheFile], [LockCacheFile] and
    [UnlockCacheFile], nor, unless the name is the bare "lock", for
    [OpenCacheFile] and [RemoveCacheFile]; stripping twice is stripping
    once; and a name made of separators only, the empty name included, is
    stripped to nothing, so that it denotes the cache directory, or the lock
    directory, itself. *)
Theorem leading_separators_are_ignored (filepath_Dir : string -> string)
    (k : nat) (name : string) (fuel : nat) (timeout : option Duration) :
  stripLeftSlash (slashes k +:+ name) = stripLeftSlash name /\
  stripLeftSlash (stripLeftSlash name) = stripLeftSlash name /\
  CheckCacheFile (slashes k +:+ name) = CheckCacheFile name /\
  LockCacheFile filepath_Dir fuel (slashes k +:+ name) =
    LockCacheFile filepath_Dir fuel name /\
  UnlockCacheFile (slashes k +:+ name) timeout = UnlockCacheFile name timeout /\
  (name <> "lock" ->
   OpenCacheFile filepath_Dir (slashes k +:+ name) = OpenCacheFile filepath_Dir name /\
   RemoveCacheFile (slashes k +:+ name) = RemoveCacheFile name) /\
  CheckCacheFile (slashes k) = doesExist "/var/cache/" /\
  LockCacheFile filepath_Dir fuel (slashes k) =
    LockCacheFile_loop filepath_Dir fuel "/var/cache/lock/".
Proof.
  pose proof (stripLeftSlash_slashes k name) as Hs.
  pose proof (stripLeftSlash_only_slashes k) as H0.
  repeat split.
  - exact Hs.
  - apply stripLeftSlash_fixed. apply stripLeftSlash_spec.
  - unfold CheckCacheFile. by rewrite Hs.
  - unfold LockCacheFile. by rewrite Hs.
  - unfold UnlockCacheFile. by rewrite Hs.
  - unfold OpenCacheFile. by rewrite Hs, isReservedName_slashes.
  - unfold RemoveCacheFile. by rewrite Hs, isReservedName_slashes.
  - unfold CheckCacheFile. by rewrite H0.
  - unfold LockCacheFile. by rewrite H0.
Qed.

Lemma leading_separators_are_ignored_example :
  OpenCacheFile dir_of "//report-cache" = OpenCacheFile dir_of "report-cache" /\
  RemoveCacheFile "//report-cache" = RemoveCacheFile "report-cache".
Proof.
  apply (proj1 (proj2 (proj2 (proj2 (proj2 (proj2
           (leading_separators_are_ignored dir_of 2 "report-cache" 0 None))))))).
  discriminate.
Defined.

(** X2: [isReservedName] rejects exactly the names that end in "/lock",
    which are the names that have a separator and "lock" as their last
    segment; the failure is always the one [InvalidCacheFileName] with the
    fixed message, and every other name passes with [nil]. *)
Theorem isReservedName_exactly (name : string) :
  (isReservedName name = None \/
   isReservedName name = Some (InvalidCacheFileName reserved_message)) /\
  (isReservedName name <> None <-> exists pre, name = pre +:+ "/lock") /\
  (isReservedName name <> None <->
   has_slash name = true /\ last_segment name = "lock").
Proof.
  split; [| split].
  - unfold isReservedName. destruct (strings.HasSuffix name "/lock"); [by right | by left].
  - rewrite <- isReservedName_rejects. unfold isReservedName.
    destruct (strings.HasSuffix name "/lock"); split; done.
  - apply isReservedName_segments.
Qed.

(** ** Removing an entry *)

(** X3: on a name that passes validation [RemoveCacheFile] makes one call,
    the removal of /var/cache/<name'>, and returns its answer as it is; it
    does not look first, so removing an entry that is not there fails with
    the filesystem's does-not-exist error, and so does removing again what
    was just removed.  On a reserved name it makes no call. *)
Theorem RemoveCacheFile_once {W : Type} (sys : Handler W)
    (present : W -> string -> bool) (laws : FsLaws sys present)
    (name : string) (w : W) :
  let entry := "/var/cache/" +:+ stripLeftSlash name in
  let r := exec sys (RemoveCacheFile name) w in
  match isReservedName name with
  | Some err => r = (Some err, w, [])
  | None =>
      r = ((sys (os_Remove entry) w).1, (sys (os_Remove entry) w).2,
           [Ev (os_Remove entry) (sys (os_Remove entry) w).1]) /\
      (present w entry = false ->
       exists e, value r = Some e /\ os.IsNotExist e = true) /\
      (value r = None ->
       exists e, value (exec sys (RemoveCacheFile name) (final r)) = Some e /\
                 os.IsNotExist e = true)
  end.
Proof.
  intros entry r. subst r. unfold RemoveCacheFile.
  destruct (isReservedName name) as [err |]; [reflexivity |].
  change (cacheDir +:+ stripLeftSlash name) with entry.
  unfold value, final. simpl. split; [reflexivity |]. split.
  - intros Habs. by apply (remove_absent sys present laws).
  - intros Hok. apply (remove_absent sys present laws).
    by apply (remove_gone sys present laws).
Qed.

Lemma RemoveCacheFile_once_example :
  exists e,
    value (exec memfs (RemoveCacheFile "report-cache") empty_fs) = Some e /\
    os.IsNotExist e = true.
Proof.
  apply (proj1 (proj2 (RemoveCacheFile_once memfs mem_present memfs_laws
                         "report-cache" empty_fs))).
  reflexivity.
Defined.

(** ** Entries under "lock/" are the markers *)

Lemma lock_entry_is_marker (n : string) :
  stripLeftSlash n = n ->
  cacheDir +:+ stripLeftSlash ("lock/" +:+ n) = lockDir +:+ stripLeftSlash n.
Proof.
  intros Hn. rewrite Hn.
  assert (Hl : stripLeftSlash ("lock/" +:+ n) = "lock/" +:+ n) by reflexivity.
  rewrite Hl. unfold cacheDir, lockDir. by simpl_append.
Qed.

(** X12: name validation does not keep the cache-entry operations out of the
    lock directory.  For a name [n] without leading separator, the entry
    "lock/n", when it passes validation, is the marker of [n]:
    [RemoveCacheFile] on it makes the very call of [UnlockCacheFile n] and
    gets its answer, [CheckCacheFile] on it is the existence check
    [LockCacheFile n] polls, and [OpenCacheFile] on it opens, and creates if
    missing, the marker file. *)
Theorem lock_entries_are_markers (filepath_Dir : string -> string)
    {W : Type} (sys : Handler W) (n : string) (w : W) :
  stripLeftSlash n = n ->
  isReservedName ("lock/" +:+ n) = None ->
  let marker := "/var/cache/lock/" +:+ stripLeftSlash n in
  trace (exec sys (RemoveCacheFile ("lock/" +:+ n)) w) =
    trace (exec sys (UnlockCacheFile n None) w) /\
  final (exec sys (RemoveCacheFile ("lock/" +:+ n)) w) =
    final (exec sys (UnlockCacheFile n None) w) /\
  value (exec sys (RemoveCacheFile ("lock/" +:+ n)) w) =
    (value (exec sys (UnlockCacheFile n None) w)).2 /\
  CheckCacheFile ("lock/" +:+ n) = doesExist marker /\
  OpenCacheFile filepath_Dir ("lock/" +:+ n) = openFile filepath_Dir marker.
Proof.
  intros Hn Hok marker.
  pose proof (lock_entry_is_marker n Hn) as Hp.
  pose proof (exec_UnlockCacheFile sys n None w) as Hu. cbv zeta in Hu.
  unfold RemoveCacheFile, CheckCacheFile, OpenCacheFile.
  rewrite Hok, Hp, Hu. change (lockDir +:+ stripLeftSlash n) with marker.
  unfold value, final, trace. simpl.
  repeat split. by destruct (sys (os_Remove marker) w) as [[e |] w'].
Qed.

Lemma lock_entries_are_markers_example :
  CheckCacheFile "lock/report-cache" = doesExist "/var/cache/lock/report-cache".
Proof.
  exact (proj1 (proj2 (proj2 (proj2
           (lock_entries_are_markers dir_of memfs "report-cache" empty_fs
              eq_refl eq_refl))))).
Defined.

(** ** How [OpenFile] proceeds *)

Lemma event_error_not_opened (ev : Event) (e : error) :
  event_error ev = Some e -> event_opened ev = None.
Proof.
  destruct ev as [c r]. unfold event_error, event_opened. simpl.
  destruct c; try done. by destruct r.
Qed.

Lemma prelude_not_opened (filepath_Dir : string -> string) (name : string) (ev : Event) :
  prelude_event filepath_Dir name ev -> event_opened ev = None.
Proof. destruct ev as [c r]. by destruct c. Qed.

Lemma prelude_modes (filepath_Dir : string -> string) (name : string)
    (flag perm : Z) (ev : Event) :
  prelude_event filepath_Dir name ev -> modes_are flag perm ev.
Proof.
  destruct ev as [c r]. unfold prelude_event, modes_are. simpl.
  destruct c; try done. by intros (_ & -> & _).
Qed.

Section Opening.

Variable filepath_Dir : string -> string.
Context {W : Type} (sys : Handler W).

(** A run of [OpenFile] is a prelude and one last call, whose answer is the
    result. *)
Lemma OpenFile_shape (name : string) (flags perms : Z) (w : W) :
  exists pre ev,
    trace (exec sys (OpenFile filepath_Dir name flags perms) w) = pre ++ [ev] /\
    Forall (prelude_event filepath_Dir name) pre /\
    modes_are flags perms ev /\
    match value (exec sys (OpenFile filepath_Dir name flags perms) w) with
    | inl f => ev = Ev (os_OpenFile name flags perms) (inl f)
    | inr e => event_error ev = Some e
    end.
Proof.
  unfold OpenFile, DoesFileExist. simpl.
  repeat exec_step sys; unfold value, trace; simpl;
    try match goal with |- context [match ?r with _ => _ end] => destruct r end;
    first
      [ solve [eexists [_], _; split; [reflexivity | repeat constructor]]
      | solve [eexists [_; _], _; split; [reflexivity | repeat constructor]]
      | solve [eexists [_; _; _], _; split; [reflexivity | repeat constructor]] ].
Qed.

Lemma OpenFile_found (name : string) (flags perms : Z) (w : W) :
  (sys (os_Stat name) w).1 = None ->
  map ev_call (trace (exec sys (OpenFile filepath_Dir name flags perms) w)) =
  [os_Stat name; os_OpenFile name flags perms].
Proof.
  unfold OpenFile. simpl.
  destruct (sys (os_Stat name) w) as [[e |] w1]; simpl; [done |]. intros _.
  by destruct (sys (os_OpenFile name flags perms) w1).
Qed.

End Opening.

(** X4: [OpenFile] calls [os.OpenFile] at most once, as its last call and
    with the caller's name, flags and permission bits, and returns that
    call's answer.  Everything before the last call is a stat of the name or
    the creation of its directory with [os.ModePerm], which succeeded; when
    [OpenFile] fails, the last call is the one that failed and its error is
    returned as it is, so a failed directory creation is never followed by
    an open.  When the first stat finds the name, no directory is created. *)
Theorem OpenFile_opens_last (filepath_Dir : string -> string)
    {W : Type} (sys : Handler W) (name : string) (flags perms : Z) (w : W) :
  let r := exec sys (OpenFile filepath_Dir name flags perms) w in
  (exists pre ev,
     trace r = pre ++ [ev] /\
     Forall (prelude_event filepath_Dir name) pre /\
     match value r with
     | inl f => ev = Ev (os_OpenFile name flags perms) (inl f)
     | inr e => event_error ev = Some e
     end) /\
  ((sys (os_Stat name) w).1 = None ->
   map ev_call (trace r) = [os_Stat name; os_OpenFile name flags perms]).
Proof.
  intros r. split.
  - destruct (OpenFile_shape filepath_Dir sys name flags perms w)
      as (pre & ev & Ht & Hpre & _ & Hv).
    by exists pre, ev.
  - apply OpenFile_found.
Qed.

(** ** Flags and permission bits *)

Section Modes.

Variable filepath_Dir : string -> string.
Context {W : Type} (sys : Handler W).

Lemma open_modes (name : string) (flags : Z) (w : W) :
  Forall (modes_are flags 384) (trace (exec sys (open filepath_Dir name flags) w)).
Proof.
  destruct (OpenFile_shape filepath_Dir sys name flags 384 w)
    as (pre & ev & Ht & Hpre & Hm & _).
  change (OpenFile filepath_Dir name flags 384) with (open filepath_Dir name flags) in Ht.
  rewrite Ht. apply Forall_app. split; [| by constructor].
  eapply Forall_impl; [exact Hpre |]. intros e. apply prelude_modes.
Qed.

Lemma body_modes (marker : string) (w : W) :
  Forall (modes_are (Z.lor (Z.lor os.O_RDWR os.O_CREATE) os.O_EXCL) 384)
    (trace (exec sys (LockCacheFile_body filepath_Dir marker) w)).
Proof.
  rewrite exec_body, (exec_doesExist sys).
  destruct (sys (os_Stat marker) w) as [[e |] w1]; cbn [fst snd];
    [destruct (os.IsNotExist e) |]; unfold trace; cbn [fst snd];
    try by repeat constructor.
  pose proof (open_modes marker (Z.lor (Z.lor os.O_RDWR os.O_CREATE) os.O_EXCL) w1)
    as Ho.
  fold (openExclusiveFile filepath_Dir marker) in Ho.
  destruct (exec sys (openExclusiveFile filepath_Dir marker) w1)
    as [[[f | e'] w2] t2]; unfold trace in Ho; cbn [fst snd] in *.
  - constructor; [done |]. apply Forall_app. split; [done | by repeat constructor].
  - by constructor.
Qed.

Lemma loop_modes (marker : string) (fuel : nat) (w : W) :
  Forall (modes_are (Z.lor (Z.lor os.O_RDWR os.O_CREATE) os.O_EXCL) 384)
    (trace (exec sys (LockCacheFile_loop filepath_Dir fuel marker) w)).
Proof.
  revert w. induction fuel as [| fuel IH]; intros w; [constructor |].
  rewrite exec_loop_S.
  pose proof (body_modes marker w) as Hb.
  destruct (exec sys (LockCacheFile_body filepath_Dir marker) w) as [[[res |] w1] t1];
    unfold trace in Hb; cbn [fst snd] in Hb; [done |].
  specialize (IH w1).
  destruct (exec sys (LockCacheFile_loop filepath_Dir fuel marker) w1) as [[r w2] t2].
  apply Forall_app. split; done.
Qed.

End Modes.

(** X5: whatever the filesystem answers, every file [OpenCacheFile] opens or
    creates is opened read-write with create and without the exclusive flag,
    every file [LockCacheFile] creates is created with the exclusive flag,
    both with permission bits 0600 (= 384), and every directory either of
    them creates is created with 0777 (= 511). *)
Theorem files_are_opened_with_fixed_modes (filepath_Dir : string -> string)
    {W : Type} (sys : Handler W) (name : string) (fuel : nat) (w : W) :
  let entry_flags := Z.lor os.O_RDWR os.O_CREATE in
  let marker_flags := Z.lor (Z.lor os.O_RDWR os.O_CREATE) os.O_EXCL in
  Forall (modes_are entry_flags 384)
    (trace (exec sys (OpenCacheFile filepath_Dir name) w)) /\
  Forall (modes_are marker_flags 384)
    (trace (exec sys (LockCacheFile filepath_Dir fuel name) w)) /\
  has_bits entry_flags os.O_CREATE = true /\
  has_bits entry_flags os.O_EXCL = false /\
  has_bits marker_flags (Z.lor os.O_CREATE os.O_EXCL) = true.
Proof.
  intros entry_flags marker_flags. repeat split.
  - unfold OpenCacheFile. destruct (isReservedName name); [constructor |].
    apply open_modes.
  - apply loop_modes.
Qed.

(** ** What a call of [LockCacheFile] creates *)

Section Creating.

Variable filepath_Dir : string -> string.
Context {W : Type} (sys : Handler W).
Variable marker : string.

Abbreviation quiet := (fun e : Event => event_opened e = None).
Abbreviation excl := (Z.lor (Z.lor os.O_RDWR os.O_CREATE) os.O_EXCL).

Lemma open_no_stray (flags : Z) (w : W) :
  match value (exec sys (open filepath_Dir marker flags) w) with
  | inl f =>
      exists pre,
        trace (exec sys (open filepath_Dir marker flags) w) =
          pre ++ [Ev (os_OpenFile marker flags 384) (inl f)] /\
        Forall quiet pre
  | inr e => Forall quiet (trace (exec sys (open filepath_Dir marker flags) w))
  end.
Proof.
  destruct (OpenFile_shape filepath_Dir sys marker flags 384 w)
    as (pre & ev & Ht & Hpre & _ & Hv).
  change (OpenFile filepath_Dir marker flags 384)
    with (open filepath_Dir marker flags) in Ht, Hv.
  assert (Hq : Forall quiet pre).
  { eapply Forall_impl; [exact Hpre |]. intros e. apply prelude_not_opened. }
  destruct (value (exec sys (open filepath_Dir marker flags) w)) as [f | e].
  - subst ev. by exists pre.
  - rewrite Ht. apply Forall_app. split; [done |].
    constructor; [| done]. by apply (event_error_not_opened ev e).
Qed.

Lemma body_no_stray (w : W) :
  match value (exec sys (LockCacheFile_body filepath_Dir marker) w) with
  | Some (true, None) =>
      exists pre f cl,
        trace (exec sys (LockCacheFile_body filepath_Dir marker) w) =
          pre ++ [Ev (os_OpenFile marker excl 384) (inl f); Ev (file_Close f) cl] /\
        Forall quiet pre
  | _ => Forall quiet (trace (exec sys (LockCacheFile_body filepath_Dir marker) w))
  end.
Proof.
  rewrite exec_body, (exec_doesExist sys).
  destruct (sys (os_Stat marker) w) as [[e |] w1]; cbn [fst snd];
    [destruct (os.IsNotExist e) |]; unfold value, trace; cbn [fst snd];
    try by repeat constructor.
  pose proof (open_no_stray excl w1) as Ho.
  fold (openExclusiveFile filepath_Dir marker) in Ho.
  destruct (exec sys (openExclusiveFile filepath_Dir marker) w1)
    as [[[f | e'] w2] t2]; unfold value, trace in Ho; cbn [fst snd] in *.
  - destruct Ho as (pre & -> & Hq).
    exists (Ev (os_Stat marker) (Some e) :: pre), f, (sys (file_Close f) w2).1.
    split; [by rewrite <- app_assoc | by constructor].
  - destruct (os.IsExist e'); by constructor.
Qed.

Lemma loop_no_stray (fuel : nat) (w : W) :
  match value (exec sys (LockCacheFile_loop filepath_Dir fuel marker) w) with
  | Some (true, None) =>
      exists pre f cl,
        trace (exec sys (LockCacheFile_loop filepath_Dir fuel marker) w) =
          pre ++ [Ev (os_OpenFile marker excl 384) (inl f); Ev (file_Close f) cl] /\
        Forall quiet pre
  | _ => Forall quiet (trace (exec sys (LockCacheFile_loop filepath_Dir fuel marker) w))
  end.
Proof.
  revert w. induction fuel as [| fuel IH]; intros w; [constructor |].
  rewrite exec_loop_S.
  pose proof (body_no_stray w) as Hb.
  destruct (exec sys (LockCacheFile_body filepath_Dir marker) w) as [[[res |] w1] t1].
  - exact Hb.
  - unfold value, trace in Hb. cbn [fst snd] in Hb. specialize (IH w1).
    destruct (exec sys (LockCacheFile_loop filepath_Dir fuel marker) w1)
      as [[r2 w2] t2]. unfold value, trace in *. cbn [fst snd] in *.
    destruct r2 as [[[|] [e |]] |]; try (apply Forall_app; by split).
    destruct IH as (pre & f & cl & -> & Hq).
    exists (t1 ++ pre), f, cl. split; [by rewrite app_assoc |].
    apply Forall_app. by split.
Qed.

(** Where the world comes from when [open] hands out a file. *)
Lemma open_final_world (flags : Z) (w : W) (f : File) :
  value (exec sys (open filepath_Dir marker flags) w) = inl f ->
  exists w0,
    (sys (os_OpenFile marker flags 384) w0).1 = inl f /\
    final (exec sys (open filepath_Dir marker flags) w) =
      (sys (os_OpenFile marker flags 384) w0).2.
Proof.
  unfold open, doesExist, value, final. simpl.
  repeat match goal with
    | |- context [sys ?c ?w0] =>
        lazymatch c with
        | os_OpenFile _ _ _ => fail
        | _ => destruct (sys c w0) as [? ?]; simpl in *
        end
    | |- context [match ?x with _ => _ end] => is_var x; destruct x; simpl in *
    | |- context [if os.IsNotExist ?e then _ else _] =>
        destruct (os.IsNotExist e); simpl in *
    end;
    try done;
    match goal with
    | |- (sys _ ?w0).1 = _ -> _ => intros Hf; exists w0; by split
    end.
Qed.

End Creating.


(** ** What the operations leave in the filesystem *)

Lemma memfs_stat_laws : StatLaws memfs mem_present.
Proof.
  split.
  - intros w name. unfold mem_present. rewrite bool_decide_eq_true. intros Hin.
    simpl. by rewrite decide_True.
  - intros w name. unfold mem_present. rewrite bool_decide_eq_false. intros Hout.
    simpl. rewrite decide_False by done. by eexists.
  - intros w name flag perm f. unfold mem_present. simpl.
    destruct (decide (name ∈ files w)) as [Hin | Hout].
    + destruct (has_bits flag (Z.lor os.O_CREATE os.O_EXCL)); simpl; [done |].
      intros _. by apply bool_decide_eq_true.
    + destruct (has_bits flag os.O_CREATE); simpl; [| done].
      intros _. apply bool_decide_eq_true. set_solver.
Qed.

Lemma never_removes_bind {A B : Type} (p : Prog A) (f : A -> Prog B) :
  never_removes p -> (forall a, never_removes (f a)) -> never_removes (bind p f).
Proof.
  intros Hp Hf. induction p as [a | c k IH]; simpl in *; [apply Hf |].
  destruct Hp as [Hc Hk]. split; [done |]. intros r. by apply IH.
Qed.

Ltac never_removes_cases :=
  repeat first
    [ progress simpl
    | split
    | intros [? |]
    | intros [? | ?]
    | match goal with
      | |- context [if os.IsNotExist ?e then _ else _] => destruct (os.IsNotExist e)
      end
    | match goal with
      | |- context [if os.IsExist ?e then _ else _] => destruct (os.IsExist e)
      end
    | intro
    | reflexivity ].

Section Keeping.

Variable filepath_Dir : string -> string.
Context {W : Type} (sys : Handler W) (present : W -> string -> bool).
Hypothesis laws : FsLaws sys present.

Lemma exec_never_removes {A : Type} (p : Prog A) (w : W) (n : string) :
  never_removes p -> present w n = true -> present (final (exec sys p w)) n = true.
Proof.
  revert w. induction p as [a | c k IH]; intros w Hp Hn; [done |].
  destruct Hp as [Hc Hk]. simpl.
  specialize (IH (sys c w).1 (sys c w).2 (Hk _)).
  destruct (exec sys (k (sys c w).1) (sys c w).2) as [[a w'] tr].
  unfold final in *. simpl in *. apply IH.
  apply (keeps_files sys present laws); [| done].
  intros other ->. done.
Qed.

Lemma open_never_removes (P : string) (flags : Z) :
  never_removes (open filepath_Dir P flags).
Proof. unfold open, doesExist. never_removes_cases. Qed.

Lemma doesExist_never_removes (P : string) : never_removes (doesExist P).
Proof. unfold doesExist. never_removes_cases. Qed.

Lemma body_never_removes (P : string) :
  never_removes (LockCacheFile_body filepath_Dir P).
Proof.
  unfold LockCacheFile_body. apply never_removes_bind;
    [apply doesExist_never_removes |].
  intros [[|] [e |]]; cbv beta iota zeta delta [andb negb isNil];
    [by simpl | by simpl | by simpl |].
  apply never_removes_bind; [apply open_never_removes |].
  intros [f | e]; simpl; [done |]. by destruct (os.IsExist e).
Qed.

Lemma loop_never_removes (P : string) (fuel : nat) :
  never_removes (LockCacheFile_loop filepath_Dir fuel P).
Proof.
  induction fuel as [| fuel IH]; [done |].
  rewrite loop_S. apply never_removes_bind; [apply body_never_removes |].
  by intros [res |].
Qed.

(** The marker is there after a successful exclusive [open], after a pass
    that acquires, and after a loop that does. *)
Lemma create_leaves_marker (P : string) (w : W) (f : File) :
  value (exec sys (openExclusiveFile filepath_Dir P) w) = inl f ->
  present (final (exec sys (openExclusiveFile filepath_Dir P) w)) P = true.
Proof.
  intros Hf. unfold openExclusiveFile in *.
  destruct (open_final_world filepath_Dir sys P _ w f Hf) as (w0 & H1 & ->).
  by apply (excl_create sys present laws w0 P _ 384 f).
Qed.

Lemma body_leaves_marker (P : string) (w : W) :
  value (exec sys (LockCacheFile_body filepath_Dir P) w) = Some (true, None) ->
  present (final (exec sys (LockCacheFile_body filepath_Dir P) w)) P = true.
Proof.
  rewrite exec_body, (exec_doesExist sys).
  destruct (sys (os_Stat P) w) as [[e |] w1]; cbn [fst snd];
    [destruct (os.IsNotExist e) |]; unfold value, final; cbn [fst snd]; try done.
  pose proof (create_leaves_marker P w1) as Hc.
  destruct (exec sys (openExclusiveFile filepath_Dir P) w1) as [[[f | e'] w2] t2];
    unfold value, final in *; cbn [fst snd] in *.
  - intros _. apply (keeps_files sys present laws); [done |]. by apply (Hc f).
  - by destruct (os.IsExist e').
Qed.

Lemma loop_leaves_marker (P : string) (fuel : nat) (w : W) :
  value (exec sys (LockCacheFile_loop filepath_Dir fuel P) w) = Some (true, None) ->
  present (final (exec sys (LockCacheFile_loop filepath_Dir fuel P) w)) P = true.
Proof.
  revert w. induction fuel as [| fuel IH]; intros w; [done |].
  rewrite exec_loop_S.
  pose proof (body_leaves_marker P w) as Hb.
  destruct (exec sys (LockCacheFile_body filepath_Dir P) w) as [[[res |] w1] t1];
    unfold value, final in *; cbn [fst snd] in *.
  - intros [= ->]. by apply Hb.
  - specialize (IH w1).
    by destruct (exec sys (LockCacheFile_loop filepath_Dir fuel P) w1) as [[r2 w2] t2].
Qed.

End Keeping.

(** X6: opening, checking and locking never delete.  [OpenCacheFile],
    [CheckCacheFile] and [LockCacheFile] make no call to [os.Remove], so on
    a filesystem where only removals make files disappear, every file that
    is there before one of them runs is there after, whatever else
    happens. *)
Theorem only_removals_delete (filepath_Dir : string -> string)
    {W : Type} (sys : Handler W) (present : W -> string -> bool)
    (laws : FsLaws sys present) (name : string) (fuel : nat) (w : W) (n : string) :
  present w n = true ->
  present (final (exec sys (OpenCacheFile filepath_Dir name) w)) n = true /\
  present (final (exec sys (CheckCacheFile name) w)) n = true /\
  present (final (exec sys (LockCacheFile filepath_Dir fuel name) w)) n = true.
Proof.
  intros Hn. repeat split.
  - apply (exec_never_removes sys present laws); [| done].
    unfold OpenCacheFile. destruct (isReservedName name); [done |].
    apply open_never_removes.
  - apply (exec_never_removes sys present laws); [| done].
    apply doesExist_never_removes.
  - apply (exec_never_removes sys present laws); [| done].
    apply loop_never_removes.
Qed.

Lemma only_removals_delete_example :
  let w := Mem {["/var/cache/lock/report-cache"]} 0 4 in
  mem_present (final (exec memfs (LockCacheFile dir_of 3 "report-cache") w))
    "/var/cache/lock/report-cache" = true.
Proof.
  intros w.
  apply (only_removals_delete dir_of memfs mem_present memfs_laws
           "report-cache" 3 w "/var/cache/lock/report-cache").
  reflexivity.
Defined.

(** X7: when [LockCacheFile] returns [true], the marker of the name exists
    in the filesystem it leaves. *)
Theorem LockCacheFile_leaves_marker (filepath_Dir : string -> string)
    {W : Type} (sys : Handler W) (present : W -> string -> bool)
    (laws : FsLaws sys present) (name : string) (fuel : nat) (w : W) :
  value (exec sys (LockCacheFile filepath_Dir fuel name) w) = Some (true, None) ->
  present (final (exec sys (LockCacheFile filepath_Dir fuel name) w))
    ("/var/cache/lock/" +:+ stripLeftSlash name) = true.
Proof. apply (loop_leaves_marker filepath_Dir sys present laws). Qed.

Lemma LockCacheFile_leaves_marker_example :
  mem_present (final (exec memfs (LockCacheFile dir_of 1 "report-cache") empty_fs))
    "/var/cache/lock/report-cache" = true.
Proof.
  apply (LockCacheFile_leaves_marker dir_of memfs mem_present memfs_laws
           "report-cache" 1 empty_fs).
  reflexivity.
Defined.

(** ** Waiting for a held lock *)

Section Waiting.

Variable filepath_Dir : string -> string.
Context {W : Type} (sys : Handler W) (present : W -> string -> bool).
Hypothesis laws : FsLaws sys present.
Hypothesis reads : StatLaws sys present.
Variable marker : string.

Lemma body_waits (w : W) :
  present w marker = true ->
  value (exec sys (LockCacheFile_body filepath_Dir marker) w) = None /\
  map ev_call (trace (exec sys (LockCacheFile_body filepath_Dir marker) w)) =
    [os_Stat marker; time_Sleep 1000] /\
  present (final (exec sys (LockCacheFile_body filepath_Dir marker) w)) marker = true.
Proof.
  intros Hp. rewrite exec_body, (exec_doesExist sys).
  pose proof (stat_present sys present reads w marker Hp) as Hs.
  assert (Hk : present (sys (os_Stat marker) w).2 marker = true)
    by (by apply (keeps_files sys present laws)).
  destruct (sys (os_Stat marker) w) as [r w1]. cbn [fst snd] in *. subst r.
  unfold value, trace, final. cbn [fst snd]. repeat split.
  by apply (keeps_files sys present laws).
Qed.

Lemma loop_waits (fuel : nat) (w : W) :
  present w marker = true ->
  value (exec sys (LockCacheFile_loop filepath_Dir fuel marker) w) = None /\
  map ev_call (trace (exec sys (LockCacheFile_loop filepath_Dir fuel marker) w)) =
    concat (replicate fuel [os_Stat marker; time_Sleep 1000]) /\
  present (final (exec sys (LockCacheFile_loop filepath_Dir fuel marker) w)) marker = true.
Proof.
  revert w. induction fuel as [| fuel IH]; intros w Hp; [done |].
  rewrite exec_loop_S.
  destruct (body_waits w Hp) as (Hv & Ht & Hf).
  destruct (exec sys (LockCacheFile_body filepath_Dir marker) w) as [[res w1] t1].
  unfold value, trace, final in Hv, Ht, Hf. cbn [fst snd] in *. subst res.
  destruct (IH w1 Hf) as (Hv2 & Ht2 & Hf2).
  destruct (exec sys (LockCacheFile_loop filepath_Dir fuel marker) w1) as [[r2 w2] t2].
  unfold value, trace, final in *. cbn [fst snd] in *.
  repeat split; [done | | done].
  by rewrite map_app, Ht, Ht2.
Qed.

End Waiting.

(** X9: while the marker is there, [LockCacheFile] only polls.  On a
    filesystem where a stat finds what is present and only removals delete,
    a call that starts with the marker present has not returned after any
    number of passes; each pass is one stat of the marker followed by one
    sleep of a microsecond, no create is attempted, and the marker is still
    there. *)
Theorem LockCacheFile_polls_while_held (filepath_Dir : string -> string)
    {W : Type} (sys : Handler W) (present : W -> string -> bool)
    (laws : FsLaws sys present) (reads : StatLaws sys present)
    (name : string) (fuel : nat) (w : W) :
  let marker := "/var/cache/lock/" +:+ stripLeftSlash name in
  let r := exec sys (LockCacheFile filepath_Dir fuel name) w in
  present w marker = true ->
  value r = None /\
  map ev_call (trace r) = concat (replicate fuel [os_Stat marker; time_Sleep 1000]) /\
  present (final r) marker = true.
Proof.
  intros marker r Hp.
  apply (loop_waits filepath_Dir sys present laws reads marker fuel w Hp).
Qed.

Lemma LockCacheFile_polls_while_held_example :
  let w := Mem {["/var/cache/lock/report-cache"]} 0 4 in
  map ev_call (trace (exec memfs (LockCacheFile dir_of 2 "report-cache") w)) =
  [os_Stat "/var/cache/lock/report-cache"; time_Sleep 1000;
   os_Stat "/var/cache/lock/report-cache"; time_Sleep 1000].
Proof.
  intros w.
  apply (proj1 (proj2 (LockCacheFile_polls_while_held dir_of memfs mem_present
                         memfs_laws memfs_stat_laws "report-cache" 2 w eq_refl))).
Defined.

(** ** Reading back what was written or removed *)

(** X11: the existence check sees what the other entry operations did.  On
    a filesystem where a stat finds what is present and reports what is not
    as not existing, [CheckCacheFile] right after an [OpenCacheFile] of the
    same name that returned a file answers [true] without error, and right
    after a [RemoveCacheFile] that returned [nil] it answers [false]
    without error. *)
Theorem CheckCacheFile_reads_back (filepath_Dir : string -> string)
    {W : Type} (sys : Handler W) (present : W -> string -> bool)
    (laws : FsLaws sys present) (reads : StatLaws sys present)
    (name : string) (w : W) :
  (forall f,
     value (exec sys (OpenCacheFile filepath_Dir name) w) = inl f ->
     value (exec sys (CheckCacheFile name)
              (final (exec sys (OpenCacheFile filepath_Dir name) w))) = (true, None)) /\
  (value (exec sys (RemoveCacheFile name) w) = None ->
   value (exec sys (CheckCacheFile name)
            (final (exec sys (RemoveCacheFile name) w))) = (false, None)).
Proof.
  split.
  - intros f. unfold OpenCacheFile, CheckCacheFile, openFile.
    destruct (isReservedName name); [done |]. intros Hf.
    destruct (open_final_world filepath_Dir sys _ _ w f Hf) as (w0 & H1 & ->).
    rewrite (exec_doesExist sys). unfold value. cbn [fst snd].
    by rewrite (stat_present sys present reads _ _
                  (open_present sys present reads w0 _ _ _ f H1)).
  - unfold RemoveCacheFile, CheckCacheFile.
    destruct (isReservedName name); [done |].
    intros Hr. rewrite (exec_doesExist sys). unfold value, final in *.
    simpl in *.
    destruct (stat_absent sys present reads _ _
                (remove_gone sys present laws w _ Hr)) as (e & He & Hne).
    match goal with
    | |- match ?x with _ => _ end = _ =>
        replace x with (Some e) by (symmetry; exact He)
    end.
    by rewrite Hne.
Qed.

Lemma CheckCacheFile_reads_back_example :
  value (exec memfs (CheckCacheFile "report-cache")
           (final (exec memfs (OpenCacheFile dir_of "report-cache") empty_fs)))
  = (true, None).
Proof.
  apply (proj1 (CheckCacheFile_reads_back dir_of memfs mem_present memfs_laws
                  memfs_stat_laws "report-cache" empty_fs) 3).
  reflexivity.
Defined.

(** ** A marker nobody owns *)

Section Stale.

Variable filepath_Dir : string -> string.
Context {W : Type} (sys : Handler W) (present : W -> string -> bool).
Hypothesis laws : FsLaws sys present.
Variable name : string.

Abbreviation marker := (lockDir +:+ stripLeftSlash name).

Lemma stuck_step (st : System W) (ic : nat * Choice) :
  Stuck present marker st -> Stuck present marker (step filepath_Dir sys name st ic).
Proof.
  intros (Hok & H0 & Hp).
  assert (HI : Inv present marker st) by (split; [done | split; [lia | done]]).
  destruct (inv_step filepath_Dir sys present laws name st ic HI) as (Hok' & _ & _).
  split; [exact Hok' |]. clear HI Hok'.
  unfold step. destruct (threads st !! ic.1) as [t |] eqn:Hi; [| done].
  pose proof (proj1 (Forall_lookup _ _) Hok _ _ Hi) as Ht.
  assert (Hfree : holds t = false).
  { destruct (holds t) eqn:Hh; [| done].
    pose proof (holders_one _ _ _ Hi Hh). lia. }
  pose proof (holders_insert (threads st) ic.1 t
                (step_thread filepath_Dir sys name ic.2 t (world st)).1 Hi) as Hcount.
  rewrite Hfree, H0 in Hcount. simpl.
  assert (Hgoal :
    holds (step_thread filepath_Dir sys name ic.2 t (world st)).1 = false /\
    present (step_thread filepath_Dir sys name ic.2 t (world st)).2 marker = true).
  { destruct t as [| [r | c k] | | [r | c k]]; simpl in *; try done.
    - split; [| done]. unfold LockCacheFile.
      apply (pre_ok_created name), loop_pre_ok.
    - split; [| done]. by rewrite Hfree.
    - destruct Ht as [[Hc Hk] | [[f ->] _]]; [| done].
      specialize (Hk (sys c (world st)).1).
      destruct (creates c (sys c (world st)).1) eqn:Ecr.
      + exfalso. destruct c as [| | n fl pm | | |]; try done.
        simpl in Hc. destruct Hc as [-> Hx].
        pose proof (excl_create sys present laws (world st) marker fl pm) as Hlaw.
        destruct (sys (os_OpenFile marker fl pm) (world st)) as [[f | e] w2];
          simpl in *; [| done].
        destruct (Hlaw f Hx eq_refl) as [Habs _]. by rewrite Hp in Habs.
      + split; [by apply (pre_ok_created name) |].
        apply (keeps_files sys present laws); [| done].
        by apply (not_remove_acquiring name). }
  destruct Hgoal as [Hh' Hp']. rewrite Hh' in Hcount. split; [lia | done].
Qed.

Lemma stuck_run (schedule : list (nat * Choice)) (st : System W) :
  Stuck present marker st -> Stuck present marker (run filepath_Dir sys name st schedule).
Proof.
  revert st. induction schedule as [| ic schedule IH]; intros st Hs; [done |].
  simpl. apply IH. by apply stuck_step.
Qed.

End Stale.

(** X10: waiting never takes over a marker.  Take any number of processes
    that follow the protocol on a name: each calls [LockCacheFile], and
    calls [UnlockCacheFile] only once its own [LockCacheFile] has returned
    [true].  If the marker is present while none of them holds the lock
    (say it was left by a holder that never released), then however their
    calls interleave none of them ever gets the lock, and the marker stays.
    (A call of [UnlockCacheFile] by a process that does not hold the lock is
    outside this statement.) *)
Theorem stale_marker_blocks_everyone (filepath_Dir : string -> string)
    {W : Type} (sys : Handler W) (present : W -> string -> bool)
    (laws : FsLaws sys present) (name : string) (w : W) (n : nat)
    (schedule : list (nat * Choice)) :
  let marker := "/var/cache/lock/" +:+ stripLeftSlash name in
  let st := run filepath_Dir sys name (init w n) schedule in
  present w marker = true ->
  holders (threads st) = 0%nat /\
  (forall i t, threads st !! i = Some t -> holds t = false) /\
  present (world st) marker = true.
Proof.
  intros marker st Hp.
  assert (Hs : Stuck present (lockDir +:+ stripLeftSlash name) (init w n)).
  { split; [by apply Forall_replicate |]. split; [apply holders_idle | done]. }
  destruct (stuck_run filepath_Dir sys present laws name schedule _ Hs)
    as (_ & H0 & Hp').
  fold st in H0, Hp'. split; [done |]. split; [| done].
  intros i t Hi. destruct (holds t) eqn:Hh; [| done].
  pose proof (holders_one _ _ _ Hi Hh). lia.
Qed.

Lemma stale_marker_blocks_everyone_example :
  let go := Choose 2 None in
  let st := run dir_of memfs "report-cache"
              (init (Mem {["/var/cache/lock/report-cache"]} 0 4) 2)
              [(0, go); (1, go); (0, go); (0, go); (1, go); (0, go); (1, go)]%nat in
  holders (threads st) = 0%nat.
Proof.
  intros go st.
  refine (proj1 (stale_marker_blocks_everyone dir_of memfs mem_present memfs_laws
                   "report-cache" (Mem {["/var/cache/lock/report-cache"]} 0 4) 2
                   _ _)).
  vm_compute. reflexivity.
Defined.
